(** * A dice game simulator: shallow embedding of [app.py] and its properties

    The program plays a dice game in which every player fills a turn of
    [NUM_DICE] kept dice by repeatedly rolling the dice still missing and
    letting a strategy choose which of them to keep; the lowest score wins
    and dice showing 3 count zero.

    Python objects that are mutated in place and shared by reference (the
    [Turn] of each [Player]) live in a store indexed by locations; the random
    module is an explicit stream of draws threaded through the computation;
    exceptions are an outcome of the computation. *)

From Stdlib Require Import ZArith List Lia String Bool.
From stdpp Require Import base list functions.
Import ListNotations.

Local Open Scope Z_scope.

(** ** Constants *)

Definition MAX_ATTEMPTS : Z := 1000000.

Definition NUM_DICE : Z := 5.

(** ** Exceptions and outcomes *)

Inductive Error : Type :=
| AssertionError
| ValueError
| IndexError
| TypeError.

(** A call returns a value, raises, or (for the model of a [while] loop
    only) stops because the iteration budget given to it is exhausted. *)
Inductive Outcome (A : Type) : Type :=
| Return (a : A)
| Raise (e : Error)
| OutOfFuel.

Arguments Return {A} a.
Arguments Raise {A} e.
Arguments OutOfFuel {A}.

(** ** The random module

    The generator is a stream of raw draws and a cursor into it.
    [randbelow n] reduces the next draw modulo [n]; [randint a b] and
    [choice seq] are built on it the way the library builds them. *)

Record Random : Type := { source : nat -> nat; cursor : nat }.

Definition randbelow (n : nat) (g : Random) : nat * Random :=
  ((source g (cursor g) mod n)%nat,
   {| source := source g; cursor := S (cursor g) |}).

Definition randint (a b : Z) (g : Random) : Z * Random :=
  let (r, g') := randbelow (Z.to_nat (b - a + 1)) g in
  (a + Z.of_nat r, g').

Definition choice {A : Type} (seq : list A) (g : Random) : Outcome A * Random :=
  match seq with
  | [] => (Raise IndexError, g)
  | x :: _ =>
      let (i, g') := randbelow (length seq) g in
      (Return (nth i seq x), g')
  end.

(** ** Builtins *)

(** [min(seq, key=key)]: the first element whose key is least; raises
    [ValueError] on an empty sequence. *)
Definition py_min {A : Type} (key : A -> Z) (seq : list A) : Outcome A :=
  match seq with
  | [] => Raise ValueError
  | x :: rest =>
      Return (fold_left (fun best y => if key y <? key best then y else best) rest x)
  end.

Definition len {A : Type} (l : list A) : Z := Z.of_nat (length l).

(** ** Data model *)

Record Dice : Type := { value : Z }.

Record Turn : Type := { kept_dice : list Dice }.

(** Locations of [Turn] objects. *)
Definition loc : Type := nat.

Definition Store : Type := loc -> Turn.

(** What a strategy sees of the game: the turns of [game.players], in
    order, and the turn of the acting player, all read through the store.
    A strategy reads the store and cannot write it: the strategy classes of
    the program only read the game and the player they are handed. *)
Definition GameView : Type := list loc.

Record Strategy : Type := {
  class_name : string;
  call : Store -> GameView -> loc -> list Dice -> Random ->
         Outcome (list Dice) * Random
}.

Record Player : Type := {
  name : string;
  strategy : Strategy;
  turn : loc
}.

Record Game : Type := { players : list Player }.

(** One completed strategy call, kept as an observation of the run. *)
Record Round : Type := {
  who : loc;
  offered : list Dice;
  chosen : list Dice
}.

(** The state a run threads: the store of turns, the random generator, the
    number of [Dice.roll] calls made so far and the strategy calls that have
    returned so far. The last two are observations only: nothing reads
    them. *)
Record World : Type := {
  store : Store;
  rng : Random;
  rolled : nat;
  log : list Round
}.

Definition M (A : Type) : Type := World -> Outcome A * World.

Definition ret {A : Type} (a : A) : M A := fun w => (Return a, w).

Definition bind {A B : Type} (m : M A) (k : A -> M B) : M B :=
  fun w =>
    match m w with
    | (Return a, w') => k a w'
    | (Raise e, w') => (Raise e, w')
    | (OutOfFuel, w') => (OutOfFuel, w')
    end.

Notation "x <- m ;; k" := (bind m (fun x => k))
  (at level 100, m at next level, right associativity).
Notation "m ;;; k" := (bind m (fun _ => k))
  (at level 100, right associativity).

Definition set_turn (l : loc) (t : Turn) : M unit :=
  fun w =>
    (Return tt,
     {| store := <[l := t]> (store w); rng := rng w;
        rolled := rolled w; log := log w |}).

(** ** Dice *)

Definition Dice_roll : M Dice :=
  fun w =>
    let (v, g) := randint 1 6 (rng w) in
    (Return {| value := v |},
     {| store := store w; rng := g; rolled := S (rolled w); log := log w |}).

(** ** Turn *)

Definition Turn_init : Turn := {| kept_dice := [] |}.

(** [[Dice.roll() for _ in range(num)]] *)
Fixpoint roll_dice (num : nat) : M (list Dice) :=
  match num with
  | O => ret []
  | S n => d <- Dice_roll ;; ds <- roll_dice n ;; ret (d :: ds)
  end.

Definition Turn_roll (self : loc) : M (list Dice) :=
  fun w =>
    let num := NUM_DICE - len (kept_dice (store w self)) in
    roll_dice (Z.to_nat num) w.

(** The method on the object: the assertion, then [extend]. *)
Definition keep (self : Turn) (dice : list Dice) : Outcome Turn :=
  if (1 <=? len dice) && (len dice <=? NUM_DICE - len (kept_dice self))
  then Return {| kept_dice := kept_dice self ++ dice |}
  else Raise AssertionError.

Definition Turn_keep (self : loc) (dice : list Dice) : M unit :=
  fun w =>
    match keep (store w self) dice with
    | Return t => set_turn self t w
    | Raise e => (Raise e, w)
    | OutOfFuel => (OutOfFuel, w)
    end.

Definition over (self : Turn) : bool := len (kept_dice self) =? NUM_DICE.

(** ** Player *)

Definition score (self : Turn) : Z :=
  fold_left (fun score d => if negb (value d =? 3) then score + value d else score)
            (kept_dice self) 0.

Definition Player_score (st : Store) (self : Player) : Z := score (st (turn self)).

(** The call [self.strategy(game, self, dice)]: the strategy reads the
    store and draws from the generator. *)
Definition invoke (self : Player) (game : Game) (dice : list Dice) : M (list Dice) :=
  fun w =>
    match call (strategy self) (store w) (map turn (players game)) (turn self)
               dice (rng w) with
    | (Return sel, g) =>
        (Return sel,
         {| store := store w; rng := g; rolled := rolled w;
            log := log w ++ [{| who := turn self; offered := dice; chosen := sel |}] |})
    | (Raise e, g) =>
        (Raise e, {| store := store w; rng := g; rolled := rolled w; log := log w |})
    | (OutOfFuel, g) =>
        (OutOfFuel, {| store := store w; rng := g; rolled := rolled w; log := log w |})
    end.

Definition Player_do_round (self : Player) (game : Game) : M unit :=
  dice <- Turn_roll (turn self) ;;
  kept <- invoke self game dice ;;
  Turn_keep (turn self) kept.

(** ** Strategies *)

Definition pure_strategy
    (f : Store -> GameView -> loc -> list Dice -> Outcome (list Dice))
    (st : Store) (game : GameView) (player : loc) (dice : list Dice)
    (g : Random) : Outcome (list Dice) * Random :=
  (f st game player dice, g).

(** The base class: [raise NotImplemented] is a [TypeError], since
    [NotImplemented] is not an exception. *)
Definition BaseStrategy : Strategy :=
  {| class_name := "Strategy";
     call := pure_strategy (fun _ _ _ _ => Raise TypeError) |}.

Definition RandomStrategy : Strategy :=
  {| class_name := "RandomStrategy";
     call := fun _ _ _ dice g =>
       match choice dice g with
       | (Return d, g') => (Return [d], g')
       | (Raise e, g') => (Raise e, g')
       | (OutOfFuel, g') => (OutOfFuel, g')
       end |}.

(** [[p.score for p in game.players if p.turn.over]] *)
Definition prior_scores (st : Store) (game : GameView) : list Z :=
  map (fun p => score (st p)) (List.filter (fun p => over (st p)) game).

(** [len(prior_scores) > 0 and min(prior_scores) > player.score] *)
Definition ahead_of_finished (st : Store) (game : GameView) (player : loc) : bool :=
  let prior := prior_scores st game in
  (len prior >? 0) &&
  match py_min (fun s => s) prior with
  | Return m => m >? score (st player)
  | _ => false
  end.

(** The bodies of the four rule strategies. They look at an offered die
    only through its [value] attribute and return the very objects they
    were offered, so they are written for any type [A] of objects with a
    value: at [A := Dice] they are the strategies on dice as values, at a
    type whose objects carry an identity they tell which object is kept. *)
Section Selection.
Context {A : Type} (value_of : A -> Z).

(** The tail shared by the four rule strategies:
    [if not keep: keep = [min(dice, key=lambda d: d.value)]; return keep]. *)
Definition or_lowest_of (keep : list A) (dice : list A) : Outcome (list A) :=
  match keep with
  | [] =>
      match py_min value_of dice with
      | Return d => Return [d]
      | Raise e => Raise e
      | OutOfFuel => OutOfFuel
      end
  | _ :: _ => Return keep
  end.

Definition SimpleStrategy_select (dice : list A) : Outcome (list A) :=
  let keep :=
    fold_left (fun keep die => if value_of die =? 3 then keep ++ [die] else keep)
              dice [] in
  or_lowest_of keep dice.

Definition KeepOnesStrategy_select (dice : list A) : Outcome (list A) :=
  let keep :=
    fold_left (fun keep die =>
                 if (value_of die =? 3) || (value_of die =? 1)
                 then keep ++ [die] else keep)
              dice [] in
  or_lowest_of keep dice.

Definition KeepOnesAndTwosStrategy_select (dice : list A) : Outcome (list A) :=
  let keep :=
    fold_left (fun keep die =>
                 if (value_of die =? 3) || (value_of die =? 1) || (value_of die =? 2)
                 then keep ++ [die] else keep)
              dice [] in
  or_lowest_of keep dice.

Definition KeepOnesUnlessLosingStrategy_select (st : Store) (game : GameView)
    (player : loc) (dice : list A) : Outcome (list A) :=
  let keep :=
    fold_left (fun keep die =>
                 if value_of die =? 3 then keep ++ [die]
                 else if value_of die =? 1 then
                   if ahead_of_finished st game player then keep ++ [die] else keep
                 else keep)
              dice [] in
  or_lowest_of keep dice.

End Selection.

(** The strategies on dice. *)
Definition or_lowest (keep : list Dice) (dice : list Dice) : Outcome (list Dice) :=
  or_lowest_of value keep dice.

Definition SimpleStrategy_call (st : Store) (game : GameView) (player : loc)
    (dice : list Dice) : Outcome (list Dice) :=
  SimpleStrategy_select value dice.

Definition SimpleStrategy : Strategy :=
  {| class_name := "SimpleStrategy"; call := pure_strategy SimpleStrategy_call |}.

Definition KeepOnesStrategy_call (st : Store) (game : GameView) (player : loc)
    (dice : list Dice) : Outcome (list Dice) :=
  KeepOnesStrategy_select value dice.

Definition KeepOnesStrategy : Strategy :=
  {| class_name := "KeepOnesStrategy"; call := pure_strategy KeepOnesStrategy_call |}.

Definition KeepOnesAndTwosStrategy_call (st : Store) (game : GameView)
    (player : loc) (dice : list Dice) : Outcome (list Dice) :=
  KeepOnesAndTwosStrategy_select value dice.

Definition KeepOnesAndTwosStrategy : Strategy :=
  {| class_name := "KeepOnesAndTwosStrategy";
     call := pure_strategy KeepOnesAndTwosStrategy_call |}.

Definition KeepOnesUnlessLosingStrategy_call (st : Store) (game : GameView)
    (player : loc) (dice : list Dice) : Outcome (list Dice) :=
  KeepOnesUnlessLosingStrategy_select value st game player dice.

Definition KeepOnesUnlessLosingStrategy : Strategy :=
  {| class_name := "KeepOnesUnlessLosingStrategy";
     call := pure_strategy KeepOnesUnlessLosingStrategy_call |}.

(** ** Game *)

(** [while not player.turn.over: player.do_round(self)], with a budget of
    iterations. *)
Fixpoint finish_turn (fuel : nat) (player : Player) (game : Game) : M unit :=
  fun w =>
    if over (store w (turn player)) then (Return tt, w)
    else
      match fuel with
      | O => (OutOfFuel, w)
      | S fuel' =>
          (Player_do_round player game ;;; finish_turn fuel' player game) w
      end.

Fixpoint for_each {A : Type} (l : list A) (body : A -> M unit) : M unit :=
  match l with
  | [] => ret tt
  | x :: rest => body x ;;; for_each rest body
  end.

(** The body of the loop that collects the winners. *)
Definition winners_step (st : Store) (winners : list Player) (player : Player)
    : list Player :=
  match winners with
  | [] => winners ++ [player]
  | first :: _ =>
      if Player_score st player <? Player_score st first then [player]
      else if Player_score st player =? Player_score st first
           then winners ++ [player]
           else winners
  end.

Definition collect_winners (game : Game) : M (list Player) :=
  fun w => (Return (fold_left (winners_step (store w)) (players game) []), w).

Definition Game_play (fuel : nat) (self : Game) : M (list Player) :=
  let active_players := players self in
  for_each active_players (fun player => finish_turn fuel player self) ;;;
  collect_winners self.

(** ** Specification vocabulary *)

(** What one kept die is worth: a 3 counts zero. *)
Definition contribution (d : Dice) : Z := if value d =? 3 then 0 else value d.

(** The sum of a list of integers. *)
Definition sum_Z (l : list Z) : Z := fold_right Z.add 0 l.

(** A sequence of [keep] calls on one turn, stopping at the first that
    raises. *)
Fixpoint keep_all (t : Turn) (calls : list (list Dice)) : Outcome Turn :=
  match calls with
  | [] => Return t
  | dice :: rest =>
      match keep t dice with
      | Return t' => keep_all t' rest
      | Raise e => Raise e
      | OutOfFuel => OutOfFuel
      end
  end.

(** The face a die shows for a raw draw of the generator. *)
Definition face_of_draw (r : nat) : Z := 1 + Z.of_nat (r mod 6).

(** The condition [keep] asserts. *)
Definition fits (t : Turn) (dice : list Dice) : Prop :=
  1 <= len dice <= NUM_DICE - len (kept_dice t).

(** The raw draws a generator hands out next. *)
Fixpoint draws_from (src : nat -> nat) (c n : nat) : list nat :=
  match n with
  | O => []
  | S n' => src c :: draws_from src (S c) n'
  end.

(** The next [n] raw draws of [g]. *)
Definition next_draws (g : Random) (n : nat) : list nat :=
  draws_from (source g) (cursor g) n.

(** The die [Dice.roll] makes of a raw draw. *)
Definition die_of_draw (r : nat) : Dice := {| value := face_of_draw r |}.

(** [m] is the first element of [l] with the least key. *)
Definition first_least {A : Type} (key : A -> Z) (l : list A) (m : A) : Prop :=
  exists pre post,
    l = pre ++ m :: post /\
    Forall (fun y => key m < key y) pre /\
    Forall (fun y => key m <= key y) post.

(** The rules of the four strategies that keep by face. *)
Definition shows_3 (d : Dice) : bool := value d =? 3.
Definition shows_3_or_1 (d : Dice) : bool := (value d =? 3) || (value d =? 1).
Definition shows_3_1_or_2 (d : Dice) : bool :=
  (value d =? 3) || (value d =? 1) || (value d =? 2).
Definition shows_3_or_1_if (ahead : bool) (d : Dice) : bool :=
  (value d =? 3) || ((value d =? 1) && ahead).

(** [d] is offered and no offered die shows less. *)
Definition lowest_of (dice : list Dice) (d : Dice) : Prop :=
  In d dice /\ Forall (fun d' => value d <= value d') dice.

(** The selection is all the dice the rule picks, in the order offered,
    or, when it picks none, a single lowest die. *)
Definition rule_or_lowest (rule : Dice -> bool) (dice sel : list Dice) : Prop :=
  (List.filter rule dice <> [] /\ sel = List.filter rule dice) \/
  (List.filter rule dice = [] /\ exists d, sel = [d] /\ lowest_of dice d).

(** The same, naming which lowest die the fallback takes: the first one. *)
Definition rule_or_first_lowest (rule : Dice -> bool) (dice sel : list Dice) : Prop :=
  (List.filter rule dice <> [] /\ sel = List.filter rule dice) \/
  (List.filter rule dice = [] /\ exists d, sel = [d] /\ first_least value dice d).

(** Dice showing the given faces, and the faces of given dice. *)
Definition dice_of (faces : list Z) : list Dice := map (fun v => {| value := v |}) faces.

Definition dice_of_faces (dice : list Dice) : list Z := map value dice.

(** The store in which every turn is new. *)
Definition no_turns : Store := fun _ => Turn_init.

(** The generator whose raw draws are 0, 1, 2, ... *)
Definition counting : Random := {| source := fun i => i; cursor := 0 |}.

(** The object at position [i] of [objs] is [x], no offered object shows
    less, and no earlier object shows as little. *)
Definition earliest_lowest {A : Type} (value_of : A -> Z) (objs : list A)
    (i : nat) (x : A) : Prop :=
  objs !! i = Some x /\
  (forall j y, objs !! j = Some y -> value_of x <= value_of y) /\
  (forall j y, objs !! j = Some y -> value_of y = value_of x -> (i <= j)%nat).

(** The result is the single object that stands first among the offered
    objects of least value: it is at the earliest position of least value,
    and, the offered objects having different identities, no object at
    another position is that object. *)
Definition keeps_first_lowest {A : Type} (value_of : A -> Z) (ident : A -> nat)
    (objs : list A) (result : Outcome (list A)) : Prop :=
  exists i x,
    result = Return [x] /\
    earliest_lowest value_of objs i x /\
    (forall j y, objs !! j = Some y -> ident y = ident x -> j = i).

(** A [Dice] object as the interpreter holds it: a die together with the
    identity of the object. *)
Record Object : Type := { ident : nat; die : Dice }.

(** The attribute [value] of a [Dice] object. *)
Definition object_value (o : Object) : Z := value (die o).

(** Objects with the identities [first], [first + 1], ... showing the
    given faces. *)
Fixpoint objects_of (first : nat) (faces : list Z) : list Object :=
  match faces with
  | [] => []
  | v :: rest => {| ident := first; die := {| value := v |} |} :: objects_of (S first) rest
  end.

(** [m] is the least of the numbers in [l]. *)
Definition least_of (l : list Z) (m : Z) : Prop :=
  In m l /\ Forall (fun y => m <= y) l.

(** A turn is completed when it holds [NUM_DICE] dice; the points of a
    turn are the faces of its kept dice added up, a 3 counting zero. *)
Definition completed (t : Turn) : Prop := len (kept_dice t) = NUM_DICE.

Definition points (t : Turn) : Z := sum_Z (map contribution (kept_dice t)).

(** The words of the rule: some player of the game other than the acting
    one has completed the turn, and the least number of points among the
    players of the game with a completed turn (some such player has [m]
    points and none has fewer) is strictly greater than the points of the
    acting player. *)
Definition may_keep_ones (st : Store) (game : GameView) (player : loc) : Prop :=
  (exists p, In p game /\ p <> player /\ completed (st p)) /\
  (exists m,
      (exists q, In q game /\ completed (st q) /\ points (st q) = m) /\
      (forall q, In q game -> completed (st q) -> m <= points (st q)) /\
      points (st player) < m).

(** A store in which the turn at 0 holds 5 and 5 (score 10) and the turn
    at 1 is complete with 3, 3, 3, 1, 2 (score 3). *)
Definition behind_a_finished_player : Store :=
  <[1%nat := {| kept_dice := dice_of [3; 3; 3; 1; 2] |}]>
    (<[0%nat := {| kept_dice := dice_of [5; 5] |}]> no_turns).

(** The same with the acting player's turn holding a single 2 (score 2). *)
Definition ahead_of_a_finished_player : Store :=
  <[1%nat := {| kept_dice := dice_of [3; 3; 3; 1; 2] |}]>
    (<[0%nat := {| kept_dice := dice_of [2] |}]> no_turns).

(** A selection that passes the size check of [keep] when the dice offered
    are exactly the missing ones. *)
Definition valid_selection (dice sel : list Dice) : Prop :=
  1 <= len sel <= len dice.

(** Whenever it is offered at least one die, the strategy returns a
    selection related to the offered dice by [Q]. *)
Definition answers (Q : list Dice -> list Dice -> Prop) (s : Strategy) : Prop :=
  forall st game player dice g,
    dice <> [] ->
    exists sel g', call s st game player dice g = (Return sel, g') /\ Q dice sel.

(** The rounds that bring the turn at [t] from [k] kept dice to
    [NUM_DICE]: each offers exactly the missing dice and keeps a selection
    related to them by [Q]. *)
Inductive fills (Q : list Dice -> list Dice -> Prop) (t : loc) : Z -> list Round -> Prop :=
| fills_over : fills Q t NUM_DICE []
| fills_round (k : Z) (r : Round) (rest : list Round) :
    k < NUM_DICE ->
    who r = t ->
    len (offered r) = NUM_DICE - k ->
    Q (offered r) (chosen r) ->
    valid_selection (offered r) (chosen r) ->
    fills Q t (k + len (chosen r)) rest ->
    fills Q t k (r :: rest).

(** The number of dice offered in the rounds: the dice rolled for them. *)
Definition dice_offered (rounds : list Round) : nat :=
  list_sum (map (fun r => length (offered r)) rounds).

(** The dice kept in the rounds, in the order they were kept. *)
Definition dice_chosen (rounds : list Round) : list Dice :=
  concat (map chosen rounds).

(** The players of [ps] take their turns one after the other from the
    store [st]: each brings the own turn to [NUM_DICE] kept dice by the
    rounds of the own group and touches no other turn. *)
Inductive played (Q : list Dice -> list Dice -> Prop) :
    Store -> list Player -> list (list Round) -> Store -> Prop :=
| played_nil (st : Store) : played Q st [] [] st
| played_cons (st st1 st' : Store) (p : Player) (ps : list Player)
              (rounds : list Round) (groups : list (list Round)) :
    fills Q (turn p) (len (kept_dice (st (turn p)))) rounds ->
    kept_dice (st1 (turn p)) = kept_dice (st (turn p)) ++ dice_chosen rounds ->
    (forall l, l <> turn p -> st1 l = st l) ->
    played Q st1 ps groups st' ->
    played Q st (p :: ps) (rounds :: groups) st'.

(** [m + (m - 1) + ... + 1]. *)
Definition triangle (m : Z) : Z := m * (m + 1) / 2.

(** No player of [ps] has a lower score than [p]. *)
Definition least_score (st : Store) (ps : list Player) (p : Player) : bool :=
  forallb (fun q => Player_score st p <=? Player_score st q) ps.

(** A non-empty selection drawn from the offered dice, in their order. *)
Definition drawn_from (dice sel : list Dice) : Prop :=
  sel <> [] /\ sel `sublist_of` dice.

(** The strategies the program defines (the abstract base class apart). *)
Definition defined_strategy (s : Strategy) : Prop :=
  s = RandomStrategy \/ s = SimpleStrategy \/ s = KeepOnesStrategy \/
  s = KeepOnesAndTwosStrategy \/ s = KeepOnesUnlessLosingStrategy.

(** A world before any game: no turn holds a die, nothing was rolled. *)
Definition fresh_world : World :=
  {| store := no_turns; rng := counting; rolled := 0%nat; log := [] |}.

(** Two players as [run] makes them, with turns at 0 and 1. *)
Definition simple_player : Player :=
  {| name := "SimpleStrategy"; strategy := SimpleStrategy; turn := 0%nat |}.

Definition cautious_player : Player :=
  {| name := "KeepOnesUnlessLosingStrategy";
     strategy := KeepOnesUnlessLosingStrategy; turn := 1%nat |}.

(** The game [run] builds: its two players, in reversed order. *)
Definition duel : Game := {| players := [cautious_player; simple_player] |}.

(** A game of one player. *)
Definition solo : Game := {| players := [simple_player] |}.

(** Three players whose turns are complete with scores 4, 4 and 7. *)
Definition finished_4_4_7 : World :=
  {| store := <[0%nat := {| kept_dice := dice_of [4; 3; 3; 3; 3] |}]>
              (<[1%nat := {| kept_dice := dice_of [2; 2; 3; 3; 3] |}]>
               (<[2%nat := {| kept_dice := dice_of [1; 6; 3; 3; 3] |}]> no_turns));
     rng := counting; rolled := 0%nat; log := [] |}.

(** The players owning these three turns. *)
Definition player_A : Player :=
  {| name := "A"; strategy := SimpleStrategy; turn := 0%nat |}.
Definition player_B : Player :=
  {| name := "B"; strategy := KeepOnesStrategy; turn := 1%nat |}.
Definition player_C : Player :=
  {| name := "C"; strategy := RandomStrategy; turn := 2%nat |}.

(** ** Vocabulary for runs under arbitrary strategies *)

(** A face a rolled die can show. *)
Definition faces_ok (d : Dice) : Prop := 1 <= value d <= 6.

(** What a run on behalf of the turns [ts] does to the world at most: kept
    dice are only ever extended, a turn within capacity stays within
    capacity, the turns outside [ts] are left alone, and the strategy calls
    it adds to the log are for turns of [ts], on dice showing faces from 1
    to 6, all of which were rolled. *)
Definition advances (ts : list loc) (w w' : World) : Prop :=
  (forall l, kept_dice (store w l) `prefix_of` kept_dice (store w' l)) /\
  (forall l, len (kept_dice (store w l)) <= NUM_DICE ->
             len (kept_dice (store w' l)) <= NUM_DICE) /\
  (forall l, ~ In l ts -> store w' l = store w l) /\
  exists rounds,
    log w' = log w ++ rounds /\
    Forall (fun r => In (who r) ts /\ Forall faces_ok (offered r)) rounds /\
    (rolled w + dice_offered rounds <= rolled w')%nat.

(** A strategy that, whatever it is offered, returns a selection failing
    the size check against the offered dice. *)
Definition misbehaves (s : Strategy) : Prop :=
  forall st game player dice g,
    exists sel g', call s st game player dice g = (Return sel, g') /\
                   ~ valid_selection dice sel.

(** Two strategies that break the contract: one keeps nothing, one keeps
    every offered die twice. *)
Definition keep_nothing : Strategy :=
  {| class_name := "KeepNothing"; call := pure_strategy (fun _ _ _ _ => Return []) |}.

Definition keep_twice : Strategy :=
  {| class_name := "KeepTwice";
     call := pure_strategy (fun _ _ _ dice => Return (dice ++ dice)) |}.

Definition abstract_player : Player :=
  {| name := "Strategy"; strategy := BaseStrategy; turn := 0%nat |}.

Definition idle_player : Player :=
  {| name := "KeepNothing"; strategy := keep_nothing; turn := 1%nat |}.

(** The exception a defined strategy raises when it is offered no dice:
    [random.choice] raises [IndexError], [min] raises [ValueError]. *)
Definition error_on_no_dice (s : Strategy) : Error :=
  if String.eqb (class_name s) "RandomStrategy" then IndexError else ValueError.

(** A selection of exactly one of the offered dice. *)
Definition one_of (dice sel : list Dice) : Prop :=
  exists d, sel = [d] /\ In d dice.

Definition random_player (l : loc) : Player :=
  {| name := "RandomStrategy"; strategy := RandomStrategy; turn := l |}.

(** ** The simulation driver

    [run] plays [MAX_ATTEMPTS] games between fresh players of two
    strategies and counts, per strategy name, the games won outright. It
    needs what the game does not: the allocation of new [Turn] objects, a
    dictionary and the standard output. *)

(** [Strategy.__str__]: the name of the class. *)
Definition str (s : Strategy) : string := class_name s.

(** A printed line, kept as the values it is formatted from:
    [f"Attempt: {attempt}"] and
    [f"{strategy}: {(score / MAX_ATTEMPTS) * 100}%"]. *)
Inductive Line : Type :=
| AttemptLine (attempt : Z)
| ShareLine (strategy : string) (score : Z).

(** The state of the process: the world of the games, the next free
    location for a [Turn], and the lines printed so far. *)
Record Process : Type := {
  world : World;
  next_turn : loc;
  stdout : list Line
}.

Inductive Exception : Type :=
| FromGame (e : Error)
| KeyError.

Inductive Result (A : Type) : Type :=
| Ok (a : A)
| Uncaught (e : Exception)
| Unfinished.

Arguments Ok {A} a.
Arguments Uncaught {A} e.
Arguments Unfinished {A}.

(** A [dict] with string keys, in insertion order. *)
Definition Dict : Type := list (string * Z).

Fixpoint dict_get (d : Dict) (k : string) : option Z :=
  match d with
  | [] => None
  | (k', v) :: rest => if String.eqb k k' then Some v else dict_get rest k
  end.

Fixpoint dict_set (d : Dict) (k : string) (v : Z) : Dict :=
  match d with
  | [] => [(k, v)]
  | (k', v') :: rest =>
      if String.eqb k k' then (k', v) :: rest else (k', v') :: dict_set rest k v
  end.

Definition print (line : Line) (pr : Process) : Process :=
  {| world := world pr; next_turn := next_turn pr; stdout := stdout pr ++ [line] |}.

(** [Player(name, strategy)]: the constructor makes a new [Turn]. *)
Definition Player_init (name : string) (strategy : Strategy) (pr : Process)
    : Player * Process :=
  let l := next_turn pr in
  ({| name := name; strategy := strategy; turn := l |},
   {| world := {| store := <[l := Turn_init]> (store (world pr));
                  rng := rng (world pr);
                  rolled := rolled (world pr);
                  log := log (world pr) |};
      next_turn := S l;
      stdout := stdout pr |}).

Definition Game_init (players : list Player) : Game := {| players := players |}.

(** [[Player(str(s), s) for s in strategies]] *)
Fixpoint make_players (strategies : list Strategy) (pr : Process)
    : list Player * Process :=
  match strategies with
  | [] => ([], pr)
  | s :: rest =>
      let (p, pr1) := Player_init (str s) s pr in
      let (ps, pr2) := make_players rest pr1 in
      (p :: ps, pr2)
  end.

(** [for winner in ...: scores[str(winner.strategy)] = scores[...] + 1] *)
Fixpoint tally (winners : list Player) (scores : Dict) : Result Dict :=
  match winners with
  | [] => Ok scores
  | winner :: rest =>
      match dict_get scores (str (strategy winner)) with
      | Some v => tally rest (dict_set scores (str (strategy winner)) (v + 1))
      | None => Uncaught KeyError
      end
  end.

(** The body of the loop over the attempts. *)
Definition attempt_body (fuel : nat) (strategies : list Strategy) (attempt : Z)
    (scores : Dict) (pr : Process) : Result Dict * Process :=
  let pr0 := if attempt mod 10000 =? 0 then print (AttemptLine attempt) pr else pr in
  let (players, pr1) := make_players strategies pr0 in
  let players := rev players in
  let game := Game_init players in
  match Game_play fuel game (world pr1) with
  | (Return winners, w') =>
      (tally (List.filter (fun _ => len winners =? 1) winners) scores,
       {| world := w'; next_turn := next_turn pr1; stdout := stdout pr1 |})
  | (Raise e, w') =>
      (Uncaught (FromGame e),
       {| world := w'; next_turn := next_turn pr1; stdout := stdout pr1 |})
  | (OutOfFuel, w') =>
      (Unfinished,
       {| world := w'; next_turn := next_turn pr1; stdout := stdout pr1 |})
  end.

(** [for attempt in range(...)]: [n] more attempts, the next one numbered
    [attempt]. *)
Fixpoint attempts (fuel : nat) (strategies : list Strategy) (n : nat) (attempt : Z)
    (scores : Dict) (pr : Process) : Result Dict * Process :=
  match n with
  | O => (Ok scores, pr)
  | S n' =>
      match attempt_body fuel strategies attempt scores pr with
      | (Ok scores', pr') => attempts fuel strategies n' (attempt + 1) scores' pr'
      | (Uncaught e, pr') => (Uncaught e, pr')
      | (Unfinished, pr') => (Unfinished, pr')
      end
  end.

Definition run (fuel : nat) (pr : Process) : Result unit * Process :=
  let strategies := [SimpleStrategy; KeepOnesUnlessLosingStrategy] in
  let scores := fold_left (fun d s => dict_set d (str s) 0) strategies [] in
  match attempts fuel strategies (Z.to_nat MAX_ATTEMPTS) 0 scores pr with
  | (Ok scores', pr') =>
      (Ok tt,
       fold_left (fun pr item => print (ShareLine (fst item) (snd item)) pr)
                 scores' pr')
  | (Uncaught e, pr') => (Uncaught e, pr')
  | (Unfinished, pr') => (Unfinished, pr')
  end.

(** The progress lines of the [n] attempts numbered from [first]: one for
    each attempt whose number is a multiple of 10000, in increasing order. *)
Definition progress_lines (first n : nat) : list Line :=
  map AttemptLine
      (List.filter (fun i => i mod 10000 =? 0) (map Z.of_nat (seq first n))).

(** A process that has done nothing yet. *)
Definition new_process : Process :=
  {| world := fresh_world; next_turn := 0%nat; stdout := [] |}.

(** The dictionary of the two strategies [run] compares. *)
Definition tallies (a b : Z) : Dict :=
  [("SimpleStrategy"%string, a); ("KeepOnesUnlessLosingStrategy"%string, b)].

(** A strategy whose calls always come back, with a selection or an
    exception. *)
Definition comes_back (s : Strategy) : Prop :=
  forall st game player dice g, fst (call s st game player dice g) <> OutOfFuel.

(** * Properties *)

(** ** Score *)

Lemma score_fold (l : list Dice) (acc : Z) :
  fold_left (fun score d => if negb (value d =? 3) then score + value d else score) l acc
  = acc + sum_Z (map contribution l).
Proof.
  revert acc. induction l as [|d l IH]; intros acc; simpl.
  - lia.
  - rewrite IH. unfold contribution. destruct (value d =? 3); simpl; lia.
Qed.

Lemma sum_Z_app (l1 l2 : list Z) : sum_Z (l1 ++ l2) = sum_Z l1 + sum_Z l2.
Proof. induction l1 as [|x l1 IH]; simpl; [reflexivity | rewrite IH; lia]. Qed.

(** C2: the score of a player is the sum of the kept dice values where a
    die showing 3 counts zero; it is a function of the kept dice alone, so
    it follows every extension of the kept dice and changes nothing. *)
Theorem score_is_sum_without_threes :
  (forall t : Turn, score t = sum_Z (map contribution (kept_dice t))) /\
  (forall (st : Store) (p : Player),
      Player_score st p = sum_Z (map contribution (kept_dice (st (turn p))))) /\
  (forall (t : Turn) (dice : list Dice),
      score {| kept_dice := kept_dice t ++ dice |}
      = score t + sum_Z (map contribution dice)).
Proof.
  assert (H : forall t, score t = sum_Z (map contribution (kept_dice t))).
  { intros t. unfold score. rewrite score_fold. lia. }
  split; [exact H | split].
  - intros st p. apply H.
  - intros t dice. rewrite !H. simpl. rewrite map_app, sum_Z_app. reflexivity.
Qed.

Example score_example :
  score {| kept_dice := [ {| value := 3 |}; {| value := 3 |}; {| value := 5 |};
                          {| value := 2 |}; {| value := 1 |} ] |} = 8.
Proof. reflexivity. Qed.

(** ** Turn *)

Lemma store_insert_eq (st : Store) (l : loc) (t : Turn) : (<[l := t]> st) l = t.
Proof. apply fn_lookup_insert. Qed.

Lemma store_insert_ne (st : Store) (l l' : loc) (t : Turn) :
  l <> l' -> (<[l := t]> st) l' = st l'.
Proof. apply fn_lookup_insert_ne. Qed.

Lemma len_app {A : Type} (l1 l2 : list A) : len (l1 ++ l2) = len l1 + len l2.
Proof. unfold len. rewrite length_app. lia. Qed.

Lemma len_nonneg {A : Type} (l : list A) : 0 <= len l.
Proof. unfold len. lia. Qed.

Lemma keep_fits (t : Turn) (dice : list Dice) :
  fits t dice -> keep t dice = Return {| kept_dice := kept_dice t ++ dice |}.
Proof.
  unfold fits, keep. intros [H1 H2].
  apply Z.leb_le in H1. apply Z.leb_le in H2. rewrite H1, H2. reflexivity.
Qed.

Lemma keep_unfit (t : Turn) (dice : list Dice) :
  ~ fits t dice -> keep t dice = Raise AssertionError.
Proof.
  unfold fits, keep. intros H.
  destruct (1 <=? len dice) eqn:H1; simpl; [|reflexivity].
  destruct (len dice <=? NUM_DICE - len (kept_dice t)) eqn:H2; [|reflexivity].
  apply Z.leb_le in H1. apply Z.leb_le in H2. lia.
Qed.

Lemma fits_dec (t : Turn) (dice : list Dice) : fits t dice \/ ~ fits t dice.
Proof. unfold fits. lia. Qed.

Lemma keep_Return_inv (t t' : Turn) (dice : list Dice) :
  keep t dice = Return t' ->
  fits t dice /\ t' = {| kept_dice := kept_dice t ++ dice |}.
Proof.
  intros H. destruct (fits_dec t dice) as [Hf|Hf].
  - rewrite (keep_fits _ _ Hf) in H. inversion H. auto.
  - rewrite (keep_unfit _ _ Hf) in H. discriminate.
Qed.

(** C5: [keep] raises (an [AssertionError], leaving everything as it was)
    exactly when the number of selected dice is not between 1 and the
    number of free slots; otherwise it returns normally and has appended
    the selected dice, in order, to the kept dice of that turn and of no
    other. *)
Theorem keep_raises_iff_selection_out_of_range
    (self : loc) (dice : list Dice) (w : World) :
  let kept := kept_dice (store w self) in
  (~ (1 <= len dice <= NUM_DICE - len kept)
   <-> Turn_keep self dice w = (Raise AssertionError, w)) /\
  (1 <= len dice <= NUM_DICE - len kept
   <-> exists w',
       Turn_keep self dice w = (Return tt, w') /\
       kept_dice (store w' self) = kept ++ dice /\
       len (kept_dice (store w' self)) = len kept + len dice /\
       (forall l, l <> self -> store w' l = store w l) /\
       rng w' = rng w /\ rolled w' = rolled w /\ log w' = log w).
Proof.
  intros kept. subst kept. unfold Turn_keep.
  destruct (fits_dec (store w self) dice) as [Hf|Hf].
  - rewrite (keep_fits _ _ Hf). unfold set_turn. split; split.
    + intros Hn. exfalso. apply Hn, Hf.
    + intros H. discriminate.
    + intros _. eexists. split; [reflexivity|]. cbn [store rng rolled log].
      rewrite store_insert_eq. cbn [kept_dice]. rewrite len_app.
      repeat split; try reflexivity.
      intros l Hl. apply store_insert_ne. congruence.
    + intros _. exact Hf.
  - rewrite (keep_unfit _ _ Hf). split; split.
    + reflexivity.
    + intros _. exact Hf.
    + intros H. exfalso. apply Hf, H.
    + intros (w' & H & _). discriminate.
Qed.

Lemma keep_all_Return (calls : list (list Dice)) (t0 t : Turn) :
  keep_all t0 calls = Return t ->
  kept_dice t = kept_dice t0 ++ concat calls /\
  (len (kept_dice t0) <= NUM_DICE -> len (kept_dice t) <= NUM_DICE).
Proof.
  revert t0. induction calls as [|dice calls IH]; intros t0 H; simpl in H.
  - inversion H; subst. rewrite app_nil_r. auto.
  - destruct (keep t0 dice) as [t1| |] eqn:Hk; try discriminate.
    apply keep_Return_inv in Hk as [Hf ->].
    apply IH in H as [Hc Hle]. simpl in Hc, Hle. split.
    + rewrite Hc. simpl concat. apply eq_sym, app_assoc.
    + intros _. apply Hle. rewrite len_app. unfold fits in Hf. lia.
Qed.

(** C4: a turn starts with no kept dice; after any sequence of [keep]
    calls that all pass the size check it holds at most [NUM_DICE] dice,
    namely all the selections in the order they were kept; it is over
    exactly when it holds [NUM_DICE] dice, and then every further [keep]
    raises; a [keep] that returns only ever extends the kept dice. *)
Theorem turn_never_exceeds_capacity (calls : list (list Dice)) (t : Turn) :
  keep_all Turn_init calls = Return t ->
  kept_dice Turn_init = [] /\
  over Turn_init = false /\
  len (kept_dice t) <= NUM_DICE /\
  kept_dice t = concat calls /\
  (over t = true <-> len (kept_dice t) = NUM_DICE) /\
  (over t = true -> forall dice, keep t dice = Raise AssertionError) /\
  (forall dice t', keep t dice = Return t' ->
     kept_dice t `prefix_of` kept_dice t' /\
     len (kept_dice t) < len (kept_dice t') <= NUM_DICE).
Proof.
  intros H. apply keep_all_Return in H as [Hc Hle]. simpl in Hc, Hle.
  assert (Hcap : len (kept_dice t) <= NUM_DICE) by (apply Hle; unfold len, NUM_DICE; simpl; lia).
  repeat split; auto.
  - unfold over. apply Z.eqb_eq.
  - unfold over. intros Heq. apply Z.eqb_eq. exact Heq.
  - unfold over. intros Hov dice. apply Z.eqb_eq in Hov.
    apply keep_unfit. unfold fits. lia.
  - apply keep_Return_inv in H as [_ ->]. simpl. exists dice. reflexivity.
  - apply keep_Return_inv in H as [Hf ->]. simpl. rewrite len_app.
    unfold fits in Hf. lia.
  - apply keep_Return_inv in H as [Hf ->]. simpl. rewrite len_app.
    unfold fits in Hf. lia.
Qed.

Lemma turn_never_exceeds_capacity_witness :
  let d := {| value := 4 |} in
  let t := {| kept_dice := [d; d; d; d; d] |} in
  over t = true /\ keep t [d] = Raise AssertionError.
Proof.
  intros d t.
  destruct (turn_never_exceeds_capacity [[d; d]; [d]; [d; d]] t eq_refl)
    as (_ & _ & _ & _ & _ & Hfull & _).
  split; [reflexivity | apply Hfull; reflexivity].
Defined.

(** ** Rolling *)

Lemma randint_1_6 (g : Random) :
  randint 1 6 g
  = (face_of_draw (source g (cursor g)),
     {| source := source g; cursor := S (cursor g) |}).
Proof. reflexivity. Qed.

Lemma face_of_draw_range (r : nat) : 1 <= face_of_draw r <= 6.
Proof.
  unfold face_of_draw.
  assert (r mod 6 < 6)%nat by (apply Nat.mod_upper_bound; lia). lia.
Qed.

Lemma face_of_draw_bijective (v : Z) :
  1 <= v <= 6 ->
  exists r, (r < 6)%nat /\ face_of_draw r = v /\
            forall r', (r' < 6)%nat -> face_of_draw r' = v -> r' = r.
Proof.
  intros Hv. exists (Z.to_nat (v - 1)). unfold face_of_draw.
  split; [lia|]. split.
  - rewrite Nat.mod_small by lia. lia.
  - intros r' Hr' H. rewrite Nat.mod_small in H by lia. lia.
Qed.

Lemma roll_dice_spec (n : nat) (w : World) :
  roll_dice n w
  = (Return (map die_of_draw (next_draws (rng w) n)),
     {| store := store w;
        rng := {| source := source (rng w); cursor := (cursor (rng w) + n)%nat |};
        rolled := (rolled w + n)%nat;
        log := log w |}).
Proof.
  revert w. induction n as [|n IH]; intros w.
  - simpl. unfold ret. rewrite !Nat.add_0_r. destruct w as [st [src c] k lg].
    reflexivity.
  - cbn [roll_dice]. unfold bind at 1. unfold Dice_roll. rewrite randint_1_6.
    unfold bind at 1. rewrite IH. unfold ret. cbn [store rng rolled log source cursor].
    unfold next_draws. cbn [draws_from map source cursor].
    rewrite !Nat.add_succ_r. reflexivity.
Qed.

Lemma next_draws_length (g : Random) (n : nat) : length (next_draws g n) = n.
Proof.
  unfold next_draws. generalize (cursor g).
  induction n as [|k IH]; intros c; simpl; auto.
Qed.

Lemma roll_returns_the_missing_dice_aux (self : loc) (w : World) :
  exists dice w',
    Turn_roll self w = (Return dice, w') /\
    length dice = Z.to_nat (NUM_DICE - len (kept_dice (store w self))) /\
    store w' = store w /\
    log w' = log w /\
    rolled w' = (rolled w + length dice)%nat.
Proof.
  unfold Turn_roll. rewrite roll_dice_spec.
  eexists. eexists. split; [reflexivity|]. cbn [store rng rolled log].
  rewrite length_map, next_draws_length. auto.
Qed.


(** ** Strategies *)

Section Builtins.
Context {A : Type} (key : A -> Z).

Lemma min_loop_spec (rest pre post : list A) (best : A) :
  Forall (fun y => key best < key y) pre ->
  Forall (fun y => key best <= key y) post ->
  first_least key (pre ++ best :: post ++ rest)
    (fold_left (fun best y => if key y <? key best then y else best) rest best).
Proof.
  revert pre post best.
  induction rest as [|y rest IH]; intros pre post best Hpre Hpost.
  - simpl. rewrite app_nil_r. exists pre, post. auto.
  - cbn [fold_left]. destruct (key y <? key best) eqn:Hlt.
    + apply Z.ltb_lt in Hlt.
      replace (pre ++ best :: post ++ y :: rest)
        with ((pre ++ best :: post) ++ y :: [] ++ rest)
        by (rewrite <- app_assoc; reflexivity).
      apply IH; [|constructor].
      rewrite Forall_app. split; [|constructor].
      * eapply Forall_impl; [|exact Hpre]. simpl. intros; lia.
      * exact Hlt.
      * eapply Forall_impl; [|exact Hpost]. simpl. intros; lia.
    + apply Z.ltb_ge in Hlt.
      replace (pre ++ best :: post ++ y :: rest)
        with (pre ++ best :: (post ++ [y]) ++ rest)
        by (rewrite <- (app_assoc post); reflexivity).
      apply IH; [exact Hpre|].
      rewrite Forall_app. split; [exact Hpost|]. constructor; [exact Hlt|constructor].
Qed.

Lemma py_min_spec (l : list A) :
  l <> [] -> exists m, py_min key l = Return m /\ first_least key l m.
Proof.
  destruct l as [|x rest]; [congruence|]. intros _.
  eexists. split; [reflexivity|].
  apply (min_loop_spec rest [] [] x); constructor.
Qed.

Lemma first_least_In (l : list A) (m : A) : first_least key l m -> In m l.
Proof. intros (pre & post & -> & _). apply in_elt. Qed.

Lemma first_least_le (l : list A) (m : A) :
  first_least key l m -> Forall (fun y => key m <= key y) l.
Proof.
  intros (pre & post & -> & Hpre & Hpost).
  rewrite Forall_app. split.
  - eapply Forall_impl; [|exact Hpre]. simpl. intros; lia.
  - constructor; [lia | exact Hpost].
Qed.
End Builtins.

(** The loop [for die in dice: if rule(die): keep.append(die)]. *)
Lemma keep_loop_filter {A : Type} (rule : A -> bool)
    (body : list A -> A -> list A) (dice acc : list A) :
  (forall keep die, body keep die = if rule die then keep ++ [die] else keep) ->
  fold_left body dice acc = acc ++ List.filter rule dice.
Proof.
  intros Hbody. revert acc. induction dice as [|d dice IH]; intros acc; simpl.
  - rewrite app_nil_r. reflexivity.
  - rewrite IH, Hbody. destruct (rule d); [|reflexivity].
    rewrite <- app_assoc. reflexivity.
Qed.

Lemma or_lowest_spec (rule : Dice -> bool) (dice : list Dice) :
  dice <> [] ->
  exists sel, or_lowest (List.filter rule dice) dice = Return sel /\
              rule_or_first_lowest rule dice sel.
Proof.
  intros Hne. unfold or_lowest, or_lowest_of, rule_or_first_lowest.
  destruct (List.filter rule dice) as [|k keep] eqn:Hf.
  - destruct (py_min_spec value dice Hne) as (m & -> & Hm).
    exists [m]. split; [reflexivity|]. right. split; [reflexivity|]. eauto.
  - eexists. split; [reflexivity|]. left. split; [discriminate | reflexivity].
Qed.

Lemma first_lowest_is_lowest (rule : Dice -> bool) (dice sel : list Dice) :
  rule_or_first_lowest rule dice sel -> rule_or_lowest rule dice sel.
Proof.
  intros [H|(Hf & d & -> & Hd)]; [left; exact H|].
  right. split; [exact Hf|]. exists d. split; [reflexivity|]. split.
  - eapply first_least_In; eauto.
  - apply (first_least_le value); exact Hd.
Qed.

Lemma SimpleStrategy_call_spec st game player dice :
  SimpleStrategy_call st game player dice = or_lowest (List.filter shows_3 dice) dice.
Proof.
  unfold SimpleStrategy_call, SimpleStrategy_select.
  rewrite (keep_loop_filter shows_3) by reflexivity. reflexivity.
Qed.

Lemma KeepOnesStrategy_call_spec st game player dice :
  KeepOnesStrategy_call st game player dice
  = or_lowest (List.filter shows_3_or_1 dice) dice.
Proof.
  unfold KeepOnesStrategy_call, KeepOnesStrategy_select.
  rewrite (keep_loop_filter shows_3_or_1) by reflexivity. reflexivity.
Qed.

Lemma KeepOnesAndTwosStrategy_call_spec st game player dice :
  KeepOnesAndTwosStrategy_call st game player dice
  = or_lowest (List.filter shows_3_1_or_2 dice) dice.
Proof.
  unfold KeepOnesAndTwosStrategy_call, KeepOnesAndTwosStrategy_select.
  rewrite (keep_loop_filter shows_3_1_or_2) by reflexivity. reflexivity.
Qed.

Lemma KeepOnesUnlessLosingStrategy_call_spec st game player dice :
  KeepOnesUnlessLosingStrategy_call st game player dice
  = or_lowest
      (List.filter (shows_3_or_1_if (ahead_of_finished st game player)) dice) dice.
Proof.
  unfold KeepOnesUnlessLosingStrategy_call, KeepOnesUnlessLosingStrategy_select.
  rewrite (keep_loop_filter (shows_3_or_1_if (ahead_of_finished st game player))).
  - reflexivity.
  - intros keep die. unfold shows_3_or_1_if.
    destruct (value die =? 3), (value die =? 1),
      (ahead_of_finished st game player); reflexivity.
Qed.

(** C6: offered at least one die, [SimpleStrategy] returns exactly the
    offered dice showing 3, [KeepOnesStrategy] those showing 3 or 1 and
    [KeepOnesAndTwosStrategy] those showing 3, 1 or 2; when no offered die
    matches, each returns a single die, one of the offered dice of least
    value. None of them draws from the generator. *)
Theorem rule_strategies_keep_matching_or_lowest
    (st : Store) (game : GameView) (player : loc) (dice : list Dice) (g : Random) :
  dice <> [] ->
  (exists sel, call SimpleStrategy st game player dice g = (Return sel, g) /\
               rule_or_lowest shows_3 dice sel) /\
  (exists sel, call KeepOnesStrategy st game player dice g = (Return sel, g) /\
               rule_or_lowest shows_3_or_1 dice sel) /\
  (exists sel, call KeepOnesAndTwosStrategy st game player dice g = (Return sel, g) /\
               rule_or_lowest shows_3_1_or_2 dice sel).
Proof.
  intros Hne. cbn [call SimpleStrategy KeepOnesStrategy KeepOnesAndTwosStrategy].
  unfold pure_strategy.
  rewrite SimpleStrategy_call_spec, KeepOnesStrategy_call_spec,
    KeepOnesAndTwosStrategy_call_spec.
  repeat split.
  - destruct (or_lowest_spec shows_3 dice Hne) as (sel & -> & H).
    exists sel. split; [reflexivity | apply first_lowest_is_lowest, H].
  - destruct (or_lowest_spec shows_3_or_1 dice Hne) as (sel & -> & H).
    exists sel. split; [reflexivity | apply first_lowest_is_lowest, H].
  - destruct (or_lowest_spec shows_3_1_or_2 dice Hne) as (sel & -> & H).
    exists sel. split; [reflexivity | apply first_lowest_is_lowest, H].
Qed.

Lemma rule_strategies_keep_matching_or_lowest_witness :
  exists sel,
    call SimpleStrategy no_turns [] 0%nat (dice_of [5; 6; 4; 2]) counting
    = (Return sel, counting) /\
    rule_or_lowest shows_3 (dice_of [5; 6; 4; 2]) sel.
Proof.
  assert (Hne : dice_of [5; 6; 4; 2] <> []) by discriminate.
  exact (proj1 (rule_strategies_keep_matching_or_lowest
                  no_turns [] 0%nat (dice_of [5; 6; 4; 2]) counting Hne)).
Defined.

Example SimpleStrategy_keeps_threes :
  call SimpleStrategy no_turns [] 0%nat (dice_of [3; 3; 5; 2; 1]) counting
  = (Return (dice_of [3; 3]), counting).
Proof. reflexivity. Qed.

Example SimpleStrategy_falls_back_to_lowest :
  call SimpleStrategy no_turns [] 0%nat (dice_of [5; 6; 4; 2]) counting
  = (Return (dice_of [2]), counting).
Proof. reflexivity. Qed.

Example KeepOnesAndTwosStrategy_keeps_in_order :
  call KeepOnesAndTwosStrategy no_turns [] 0%nat (dice_of [2; 6; 1; 3; 2]) counting
  = (Return (dice_of [2; 1; 3; 2]), counting).
Proof. reflexivity. Qed.

Lemma first_least_earliest {A : Type} (value_of : A -> Z) (objs : list A) (x : A) :
  first_least value_of objs x -> exists i, earliest_lowest value_of objs i x.
Proof.
  intros Hx. pose proof (first_least_le value_of _ _ Hx) as Hle.
  destruct Hx as (pre & post & -> & Hpre & _).
  exists (length pre). split; [|split].
  - apply list_lookup_middle. reflexivity.
  - intros j y Hj. rewrite Forall_lookup in Hle. exact (Hle j y Hj).
  - intros j y Hj Hv. destruct (le_lt_dec (length pre) j) as [|Hlt]; [assumption|].
    rewrite lookup_app_l in Hj by exact Hlt.
    rewrite Forall_lookup in Hpre. specialize (Hpre j y Hj). simpl in Hpre. lia.
Qed.

Lemma fallback_first_lowest {A : Type} (value_of : A -> Z) (ident : A -> nat)
    (rule : A -> bool) (objs : list A) :
  objs <> [] ->
  List.NoDup (map ident objs) ->
  List.filter rule objs = [] ->
  keeps_first_lowest value_of ident objs
                     (or_lowest_of value_of (List.filter rule objs) objs).
Proof.
  intros Hne Hnd ->. unfold or_lowest_of.
  destruct (py_min_spec value_of objs Hne) as (x & -> & Hx).
  destruct (first_least_earliest _ _ _ Hx) as (i & Hi).
  exists i, x. split; [reflexivity|]. split; [exact Hi|].
  intros j y Hj Hid. destruct Hi as (Hi & _).
  apply (NoDup_lookup (map ident objs) j i (ident x));
    [apply NoDup_ListNoDup, Hnd | |].
  - rewrite list_lookup_fmap, Hj. simpl. congruence.
  - rewrite list_lookup_fmap, Hi. reflexivity.
Qed.

(** C10: the four rule strategies run on the offered objects and touch
    them only through their value, and their [call] on dice is that code.
    When the rule picks none of the offered objects, each strategy returns
    exactly one object: the one at the earliest position among the offered
    objects of least value. Objects being told apart by their identity, a
    later object of the same least value is not the one kept. *)
Theorem fallback_keeps_the_earliest_lowest_die
    {A : Type} (value_of : A -> Z) (ident : A -> nat)
    (st : Store) (game : GameView) (player : loc) (objs : list A) :
  objs <> [] ->
  List.NoDup (map ident objs) ->
  (List.filter (fun o => value_of o =? 3) objs = [] ->
   keeps_first_lowest value_of ident objs (SimpleStrategy_select value_of objs)) /\
  (List.filter (fun o => (value_of o =? 3) || (value_of o =? 1)) objs = [] ->
   keeps_first_lowest value_of ident objs (KeepOnesStrategy_select value_of objs)) /\
  (List.filter (fun o => (value_of o =? 3) || (value_of o =? 1) || (value_of o =? 2))
               objs = [] ->
   keeps_first_lowest value_of ident objs
                      (KeepOnesAndTwosStrategy_select value_of objs)) /\
  (List.filter (fun o => (value_of o =? 3)
                         || ((value_of o =? 1) && ahead_of_finished st game player))
               objs = [] ->
   keeps_first_lowest value_of ident objs
                      (KeepOnesUnlessLosingStrategy_select value_of st game player objs)) /\
  (forall (dice : list Dice) (g : Random),
     call SimpleStrategy st game player dice g
     = (SimpleStrategy_select value dice, g) /\
     call KeepOnesStrategy st game player dice g
     = (KeepOnesStrategy_select value dice, g) /\
     call KeepOnesAndTwosStrategy st game player dice g
     = (KeepOnesAndTwosStrategy_select value dice, g) /\
     call KeepOnesUnlessLosingStrategy st game player dice g
     = (KeepOnesUnlessLosingStrategy_select value st game player dice, g)).
Proof.
  intros Hne Hnd.
  unfold SimpleStrategy_select, KeepOnesStrategy_select,
    KeepOnesAndTwosStrategy_select, KeepOnesUnlessLosingStrategy_select.
  split; [|split; [|split; [|split]]].
  - intros Hnone.
    rewrite (keep_loop_filter (fun o => value_of o =? 3)) by reflexivity.
    apply fallback_first_lowest; assumption.
  - intros Hnone.
    rewrite (keep_loop_filter (fun o => (value_of o =? 3) || (value_of o =? 1)))
      by reflexivity.
    apply fallback_first_lowest; assumption.
  - intros Hnone.
    rewrite (keep_loop_filter
               (fun o => (value_of o =? 3) || (value_of o =? 1) || (value_of o =? 2)))
      by reflexivity.
    apply fallback_first_lowest; assumption.
  - intros Hnone.
    rewrite (keep_loop_filter
               (fun o => (value_of o =? 3)
                         || ((value_of o =? 1) && ahead_of_finished st game player))).
    + apply fallback_first_lowest; assumption.
    + intros keep o.
      destruct (value_of o =? 3), (value_of o =? 1),
        (ahead_of_finished st game player); reflexivity.
  - intros dice g. repeat split.
Qed.

Lemma fallback_keeps_the_earliest_lowest_die_witness :
  keeps_first_lowest object_value ident (objects_of 10 [5; 2; 4; 2])
    (KeepOnesStrategy_select object_value (objects_of 10 [5; 2; 4; 2])).
Proof.
  assert (Hne : objects_of 10 [5; 2; 4; 2] <> []) by discriminate.
  assert (Hnd : List.NoDup (map ident (objects_of 10 [5; 2; 4; 2]))).
  { cbn. repeat constructor; cbn; intros H;
      repeat (destruct H as [H|H]; [discriminate|]); exact H. }
  destruct (fallback_keeps_the_earliest_lowest_die
              object_value ident no_turns [] 0%nat
              (objects_of 10 [5; 2; 4; 2]) Hne Hnd)
    as (_ & H & _).
  apply H. reflexivity.
Defined.

Example tied_lowest_objects_keep_the_first :
  KeepOnesStrategy_select object_value (objects_of 10 [5; 2; 4; 2])
  = Return [{| ident := 11; die := {| value := 2 |} |}] /\
  KeepOnesUnlessLosingStrategy_select object_value no_turns [] 0%nat
                                      (objects_of 20 [6; 4; 4; 1; 1])
  = Return [{| ident := 23; die := {| value := 1 |} |}] /\
  call KeepOnesStrategy no_turns [] 0%nat (dice_of [5; 2; 4; 2]) counting
  = (Return (dice_of [2]), counting).
Proof. repeat split. Qed.

(** ** Keeping ones unless losing *)

Lemma in_prior_scores (st : Store) (game : GameView) (m : Z) :
  In m (prior_scores st game) <->
  exists p, In p game /\ over (st p) = true /\ score (st p) = m.
Proof.
  unfold prior_scores. rewrite in_map_iff. split.
  - intros (p & Hs & Hp). apply filter_In in Hp as [Hin Hov]. eauto.
  - intros (p & Hin & Hov & Hs). exists p. split; [exact Hs|].
    apply filter_In. auto.
Qed.

Lemma py_min_least (l : list Z) :
  l <> [] -> exists m, py_min (fun s => s) l = Return m /\ least_of l m.
Proof.
  intros Hne. destruct (py_min_spec (fun s => s) l Hne) as (m & Hm & Hf).
  exists m. split; [exact Hm|]. split.
  - eapply first_least_In; eauto.
  - exact (first_least_le (fun s => s) l m Hf).
Qed.

Lemma least_of_unique (l : list Z) (m m' : Z) :
  least_of l m -> least_of l m' -> m = m'.
Proof.
  intros [Hin Hle] [Hin' Hle']. rewrite Forall_forall in Hle, Hle'.
  specialize (Hle _ Hin'). specialize (Hle' _ Hin). lia.
Qed.

Lemma score_points (t : Turn) : score t = points t.
Proof. unfold score, points. rewrite score_fold. lia. Qed.

Lemma over_completed (t : Turn) : over t = true <-> completed t.
Proof. unfold over, completed. apply Z.eqb_eq. Qed.

Lemma least_prior_score (st : Store) (game : GameView) (m : Z) :
  least_of (prior_scores st game) m <->
  (exists q, In q game /\ completed (st q) /\ points (st q) = m) /\
  (forall q, In q game -> completed (st q) -> m <= points (st q)).
Proof.
  unfold least_of. rewrite in_prior_scores, Forall_forall. split.
  - intros [(q & Hq & Hov & Hs) Hle]. split.
    + exists q. rewrite <- score_points, <- over_completed. auto.
    + intros q' Hq' Hc. rewrite <- score_points. apply Hle.
      apply in_prior_scores. exists q'. rewrite over_completed. auto.
  - intros [(q & Hq & Hc & Hs) Hle]. split.
    + exists q. rewrite score_points, over_completed. auto.
    + intros y Hy. apply in_prior_scores in Hy as (q' & Hq' & Hov & <-).
      rewrite score_points. apply Hle; [exact Hq' | apply over_completed, Hov].
Qed.

Lemma ahead_of_finished_spec (st : Store) (game : GameView) (player : loc) :
  ahead_of_finished st game player = true <-> may_keep_ones st game player.
Proof.
  unfold ahead_of_finished, may_keep_ones.
  destruct (prior_scores st game) as [|s prior] eqn:Hprior.
  - split; [discriminate|].
    intros [(p & Hin & _ & Hc) _]. exfalso.
    assert (H : In (score (st p)) (prior_scores st game)).
    { apply in_prior_scores. exists p. rewrite over_completed. auto. }
    rewrite Hprior in H. destruct H.
  - assert (Hne : s :: prior <> []) by discriminate.
    destruct (py_min_least _ Hne) as (m & Hm & Hleast). rewrite Hm.
    assert (Hpos : (len (s :: prior) >? 0) = true).
    { rewrite Z.gtb_ltb. apply Z.ltb_lt. unfold len. simpl length. lia. }
    rewrite Hpos. cbn [andb]. rewrite Z.gtb_ltb, Z.ltb_lt, score_points.
    rewrite <- Hprior in Hleast. split.
    + intros Hlt. pose proof Hleast as Hwords.
      apply least_prior_score in Hwords as [Hsome Hall]. split.
      * destruct Hsome as (p & Hp & Hc & Hs).
        exists p. repeat split; auto. intros ->. lia.
      * exists m. auto.
    + intros [_ (m' & Hsome & Hall & Hlt)].
      assert (Hleast' : least_of (prior_scores st game) m')
        by (apply least_prior_score; auto).
      rewrite (least_of_unique _ _ _ Hleast Hleast'). exact Hlt.
Qed.

(** C7: offered at least one die, [KeepOnesUnlessLosingStrategy] keeps
    every offered die showing 3 and keeps the offered dice showing 1
    exactly when some other player has completed the turn and the least
    score among the players with a completed turn is strictly greater than
    the acting player's score; when that selects no die, it keeps a single
    offered die of least value. *)
Theorem keep_ones_only_when_ahead_of_the_finished
    (st : Store) (game : GameView) (player : loc) (dice : list Dice) (g : Random) :
  dice <> [] ->
  exists (sel : list Dice) (ones : bool),
    call KeepOnesUnlessLosingStrategy st game player dice g = (Return sel, g) /\
    (ones = true <-> may_keep_ones st game player) /\
    rule_or_lowest (shows_3_or_1_if ones) dice sel.
Proof.
  intros Hne. cbn [call KeepOnesUnlessLosingStrategy]. unfold pure_strategy.
  rewrite KeepOnesUnlessLosingStrategy_call_spec.
  destruct (or_lowest_spec (shows_3_or_1_if (ahead_of_finished st game player))
                           dice Hne) as (sel & -> & H).
  exists sel, (ahead_of_finished st game player).
  split; [reflexivity|]. split.
  - apply ahead_of_finished_spec.
  - apply first_lowest_is_lowest, H.
Qed.

Lemma keep_ones_only_when_ahead_of_the_finished_witness :
  exists (sel : list Dice) (ones : bool),
    call KeepOnesUnlessLosingStrategy behind_a_finished_player [0; 1]%nat 0%nat
         (dice_of [4; 1; 5]) counting = (Return sel, counting) /\
    (ones = true <-> may_keep_ones behind_a_finished_player [0; 1]%nat 0%nat) /\
    rule_or_lowest (shows_3_or_1_if ones) (dice_of [4; 1; 5]) sel.
Proof.
  apply keep_ones_only_when_ahead_of_the_finished. discriminate.
Defined.

Example losing_player_keeps_the_one_only_as_lowest :
  call KeepOnesUnlessLosingStrategy behind_a_finished_player [0; 1]%nat 0%nat
       (dice_of [4; 1; 5]) counting = (Return (dice_of [1]), counting) /\
  call KeepOnesUnlessLosingStrategy behind_a_finished_player [0; 1]%nat 0%nat
       (dice_of [4; 1; 3; 1]) counting = (Return (dice_of [3]), counting).
Proof. split; reflexivity. Qed.

Example leading_player_keeps_the_ones :
  call KeepOnesUnlessLosingStrategy ahead_of_a_finished_player [0; 1]%nat 0%nat
       (dice_of [4; 1; 3; 1]) counting = (Return (dice_of [1; 3; 1]), counting).
Proof. split; reflexivity. Qed.

(** ** Rounds and turns of a game *)

Section Rounds.
Variable Q : list Dice -> list Dice -> Prop.
Hypothesis Q_valid : forall dice sel, Q dice sel -> valid_selection dice sel.

Lemma do_round_spec (p : Player) (game : Game) (w : World) :
  len (kept_dice (store w (turn p))) < NUM_DICE ->
  answers Q (strategy p) ->
  exists dice sel w',
    Player_do_round p game w = (Return tt, w') /\
    len dice = NUM_DICE - len (kept_dice (store w (turn p))) /\
    Q dice sel /\
    kept_dice (store w' (turn p)) = kept_dice (store w (turn p)) ++ sel /\
    (forall l, l <> turn p -> store w' l = store w l) /\
    log w' = log w ++ [{| who := turn p; offered := dice; chosen := sel |}] /\
    rolled w' = (rolled w + length dice)%nat.
Proof.
  intros Hk Hans.
  destruct (roll_returns_the_missing_dice_aux (turn p) w)
    as (dice & w1 & Hroll & Hlen & Hst1 & Hlog1 & Hrolled1).
  assert (Hlen' : len dice = NUM_DICE - len (kept_dice (store w (turn p)))).
  { unfold len in *. rewrite Hlen. lia. }
  assert (Hne : dice <> []).
  { intros ->. change (len (@nil Dice)) with 0 in Hlen'. lia. }
  destruct (Hans (store w1) (map turn (players game)) (turn p) dice (rng w1) Hne)
    as (sel & g' & Hcall & HQ).
  pose proof (Q_valid _ _ HQ) as Hval. unfold valid_selection in Hval.
  unfold Player_do_round, bind. rewrite Hroll.
  unfold invoke. rewrite Hcall. unfold Turn_keep. cbn [store].
  rewrite Hst1. rewrite keep_fits by (unfold fits; lia).
  unfold set_turn. cbn [store rng rolled log].
  exists dice, sel. eexists. split; [reflexivity|]. cbn [store rng rolled log].
  rewrite store_insert_eq. cbn [kept_dice].
  repeat split; auto.
  - intros l Hl. apply store_insert_ne. congruence.
  - rewrite Hlog1. reflexivity.
Qed.

Lemma finish_turn_spec (fuel : nat) (p : Player) (game : Game) (w : World) :
  len (kept_dice (store w (turn p))) <= NUM_DICE ->
  NUM_DICE - len (kept_dice (store w (turn p))) <= Z.of_nat fuel ->
  answers Q (strategy p) ->
  exists rounds w',
    finish_turn fuel p game w = (Return tt, w') /\
    fills Q (turn p) (len (kept_dice (store w (turn p)))) rounds /\
    kept_dice (store w' (turn p))
    = kept_dice (store w (turn p)) ++ dice_chosen rounds /\
    (forall l, l <> turn p -> store w' l = store w l) /\
    log w' = log w ++ rounds /\
    rolled w' = (rolled w + dice_offered rounds)%nat.
Proof.
  intros Hcap Hfuel Hans. revert w Hcap Hfuel.
  induction fuel as [|fuel IH]; intros w Hcap Hfuel.
  - assert (Hk : len (kept_dice (store w (turn p))) = NUM_DICE) by lia.
    exists [], w. cbn [finish_turn]. unfold over. rewrite Hk, Z.eqb_refl.
    unfold dice_chosen, dice_offered. simpl.
    rewrite !app_nil_r, Nat.add_0_r. repeat split; auto. constructor.
  - cbn [finish_turn]. unfold over.
    destruct (len (kept_dice (store w (turn p))) =? NUM_DICE) eqn:Hov.
    + apply Z.eqb_eq in Hov. exists [], w.
      rewrite Hov. unfold dice_chosen, dice_offered. simpl.
      rewrite !app_nil_r, Nat.add_0_r. repeat split; auto. constructor.
    + apply Z.eqb_neq in Hov.
      destruct (do_round_spec p game w ltac:(lia) Hans)
        as (dice & sel & w1 & Hround & Hlen & HQ & Hkept & Hother & Hlog & Hrolled).
      pose proof (Q_valid _ _ HQ) as Hval. unfold valid_selection in Hval.
      assert (Hk1 : len (kept_dice (store w1 (turn p)))
                    = len (kept_dice (store w (turn p))) + len sel).
      { rewrite Hkept. apply len_app. }
      destruct (IH w1 ltac:(lia) ltac:(lia))
        as (rounds & w' & Hrest & Hfills & Hkept' & Hother' & Hlog' & Hrolled').
      exists ({| who := turn p; offered := dice; chosen := sel |} :: rounds), w'.
      unfold bind. rewrite Hround, Hrest. split; [reflexivity|].
      split; [|split; [|split; [|split]]].
      * apply fills_round; cbn [who offered chosen]; auto; try lia.
        rewrite <- Hk1. exact Hfills.
      * rewrite Hkept', Hkept. unfold dice_chosen. simpl.
        rewrite <- app_assoc. reflexivity.
      * intros l Hl. rewrite Hother' by exact Hl. apply Hother, Hl.
      * rewrite Hlog', Hlog, <- app_assoc. reflexivity.
      * rewrite Hrolled', Hrolled. unfold dice_offered. simpl. lia.
Qed.
End Rounds.

Section Turns.
Variable Q : list Dice -> list Dice -> Prop.
Hypothesis Q_valid : forall dice sel, Q dice sel -> valid_selection dice sel.

Lemma fills_chosen (t : loc) (k : Z) (rounds : list Round) :
  fills Q t k rounds -> k + len (dice_chosen rounds) = NUM_DICE.
Proof.
  induction 1 as [|k r rest Hk Hwho Hoff HQ Hval Hrest IH].
  - unfold dice_chosen, len. simpl. lia.
  - unfold dice_chosen in *. simpl. rewrite len_app. lia.
Qed.

Lemma fills_complete (t : loc) (rounds : list Round) :
  fills Q t NUM_DICE rounds -> rounds = [].
Proof. inversion 1; [reflexivity | lia]. Qed.

Lemma fills_offered (t : loc) (k : Z) (rounds : list Round) :
  fills Q t k rounds ->
  NUM_DICE - k <= Z.of_nat (dice_offered rounds) <= triangle (NUM_DICE - k).
Proof.
  unfold triangle.
  induction 1 as [|k r rest Hk Hwho Hoff HQ Hval Hrest IH].
  - rewrite Z.sub_diag. change (0 <= 0 <= 0). lia.
  - unfold valid_selection in Hval. unfold dice_offered in *. simpl.
    unfold len in Hoff at 1. rewrite Nat2Z.inj_add, Hoff.
    set (m := NUM_DICE - k) in *. set (c := len (chosen r)) in *.
    replace (NUM_DICE - (k + c)) with (m - c) in IH by (unfold m; lia).
    set (s := Z.of_nat (list_sum (map (fun r0 => length (offered r0)) rest))) in *.
    assert (Hm : len (offered r) = m) by exact Hoff.
    rewrite Hm in Hval.
    assert (Hs : 2 * s <= (m - c) * (m - c + 1)).
    { destruct IH as [_ IH]. apply (Z.mul_le_mono_nonneg_l _ _ 2) in IH; [|lia].
      etransitivity; [exact IH|]. apply Z.mul_div_le. lia. }
    split; [lia|]. apply Z.div_le_lower_bound; [lia|]. nia.
Qed.

Lemma fills_rounds (t : loc) (k : Z) (rounds : list Round) :
  0 <= k ->
  fills Q t k rounds ->
  Forall (fun r => who r = t /\
                   1 <= len (offered r) <= NUM_DICE /\
                   Q (offered r) (chosen r) /\
                   valid_selection (offered r) (chosen r)) rounds.
Proof.
  intros Hk H. induction H as [|k r rest Hlt Hwho Hoff HQ Hval Hrest IH].
  - constructor.
  - pose proof Hval as [Hc1 Hc2]. constructor.
    + repeat split; auto; lia.
    + apply IH. lia.
Qed.

Lemma take_turns_spec (fuel : nat) (game : Game) (ps : list Player) (w : World) :
  NUM_DICE <= Z.of_nat fuel ->
  Forall (fun p => answers Q (strategy p)) ps ->
  Forall (fun p => len (kept_dice (store w (turn p))) <= NUM_DICE) ps ->
  exists groups w',
    for_each ps (fun player => finish_turn fuel player game) w = (Return tt, w') /\
    played Q (store w) ps groups (store w') /\
    log w' = log w ++ concat groups /\
    rolled w' = (rolled w + dice_offered (concat groups))%nat.
Proof.
  intros Hfuel. revert w. induction ps as [|p ps IH]; intros w Hans Hcap.
  - exists [], w. cbn [for_each concat]. unfold ret, dice_offered.
    cbn [map list_sum]. rewrite (app_nil_r (log w)), Nat.add_0_r.
    split; [reflexivity|]. split; [constructor|]. split; reflexivity.
  - inversion Hans as [|? ? Hp Hans']; subst. inversion Hcap as [|? ? Hk Hcap']; subst.
    clear Hans Hcap. rename Hans' into Hans, Hcap' into Hcap.
    destruct (finish_turn_spec Q Q_valid fuel p game w Hk
                ltac:(pose proof (len_nonneg (kept_dice (store w (turn p)))); lia) Hp)
      as (rounds & w1 & Hturn & Hfills & Hkept & Hother & Hlog & Hrolled).
    assert (Hcap1 : Forall (fun q => len (kept_dice (store w1 (turn q))) <= NUM_DICE) ps).
    { rewrite Forall_forall in Hcap. apply Forall_forall. intros q Hq.
      destruct (Nat.eq_dec (turn q) (turn p)) as [Heq|Hne].
      - rewrite Heq, Hkept, len_app.
        pose proof (fills_chosen _ _ _ Hfills). lia.
      - rewrite Hother by exact Hne. apply Hcap, Hq. }
    destruct (IH w1 Hans Hcap1) as (groups & w' & Hrest & Hplayed & Hlog' & Hrolled').
    exists (rounds :: groups), w'. cbn [for_each]. unfold bind.
    rewrite Hturn, Hrest. split; [reflexivity|]. split; [|split].
    + econstructor; eauto.
    + rewrite Hlog', Hlog. simpl. rewrite app_assoc. reflexivity.
    + rewrite Hrolled', Hrolled. unfold dice_offered. simpl.
      rewrite map_app, list_sum_app. lia.
Qed.

Lemma played_keeps_complete (st st' : Store) (ps : list Player)
    (groups : list (list Round)) :
  played Q st ps groups st' ->
  forall l, len (kept_dice (st l)) = NUM_DICE ->
            kept_dice (st' l) = kept_dice (st l).
Proof.
  induction 1 as [|st st1 st' p ps rounds groups Hfills Hkept Hother Hrest IH];
    intros l Hl; [reflexivity|].
  assert (H1 : kept_dice (st1 l) = kept_dice (st l)).
  { destruct (Nat.eq_dec l (turn p)) as [->|Hne].
    - rewrite Hl in Hfills. apply fills_complete in Hfills. subst rounds.
      rewrite Hkept. unfold dice_chosen. simpl. apply app_nil_r.
    - rewrite Hother by exact Hne. reflexivity. }
  rewrite <- H1. apply IH. rewrite H1. exact Hl.
Qed.

Lemma played_all_over (st st' : Store) (ps : list Player)
    (groups : list (list Round)) :
  played Q st ps groups st' ->
  Forall (fun p => over (st' (turn p)) = true) ps.
Proof.
  induction 1 as [|st st1 st' p ps rounds groups Hfills Hkept Hother Hrest IH];
    constructor; [|exact IH].
  assert (H1 : len (kept_dice (st1 (turn p))) = NUM_DICE).
  { rewrite Hkept, len_app. apply (fills_chosen _ _ _ Hfills). }
  unfold over. rewrite (played_keeps_complete _ _ _ _ Hrest _ H1).
  apply Z.eqb_eq, H1.
Qed.

Lemma played_in_order (st st' : Store) (ps : list Player)
    (groups : list (list Round)) :
  played Q st ps groups st' ->
  Forall2 (fun p rounds => Forall (fun r => who r = turn p) rounds) ps groups.
Proof.
  induction 1 as [|st st1 st' p ps rounds groups Hfills Hkept Hother Hrest IH];
    constructor; [|exact IH].
  eapply Forall_impl; [|apply (fills_rounds _ _ _ (len_nonneg _) Hfills)].
  simpl. intros r Hr. apply Hr.
Qed.

Lemma played_rounds (st st' : Store) (ps : list Player)
    (groups : list (list Round)) :
  played Q st ps groups st' ->
  Forall (fun r => 1 <= len (offered r) <= NUM_DICE /\
                   Q (offered r) (chosen r) /\
                   valid_selection (offered r) (chosen r)) (concat groups).
Proof.
  induction 1 as [|st st1 st' p ps rounds groups Hfills Hkept Hother Hrest IH];
    [constructor|].
  simpl. apply Forall_app. split; [|exact IH].
  eapply Forall_impl; [|apply (fills_rounds _ _ _ (len_nonneg _) Hfills)].
  simpl. intros r Hr. apply Hr.
Qed.
End Turns.

(** ** Winners *)

Lemma least_score_snoc (st : Store) (pre : list Player) (p q : Player) :
  least_score st (pre ++ [p]) q
  = least_score st pre q && (Player_score st q <=? Player_score st p).
Proof.
  unfold least_score. rewrite forallb_app. simpl. rewrite andb_true_r. reflexivity.
Qed.

Lemma least_score_le (st : Store) (ps : list Player) (p q : Player) :
  least_score st ps p = true -> In q ps -> Player_score st p <= Player_score st q.
Proof.
  unfold least_score. rewrite forallb_forall. intros H Hq.
  apply Z.leb_le, H, Hq.
Qed.

Lemma winners_loop_spec (st : Store) (ps : list Player) :
  fold_left (winners_step st) ps [] = List.filter (least_score st ps) ps /\
  (ps = [] \/ fold_left (winners_step st) ps [] <> []).
Proof.
  induction ps as [|p pre [IH Hne]] using rev_ind.
  - split; [reflexivity | left; reflexivity].
  - rewrite fold_left_app. cbn [fold_left]. rewrite List.filter_app. cbn [List.filter].
    rewrite least_score_snoc, Z.leb_refl, andb_true_r.
    unfold winners_step at 1 3.
    destruct (fold_left (winners_step st) pre []) as [|first rest] eqn:HW.
    + destruct Hne as [->|Hne]; [|congruence].
      split; [reflexivity | right; discriminate].
    + assert (Hfirst : In first pre /\ least_score st pre first = true).
      { apply filter_In. rewrite <- IH. left. reflexivity. }
      destruct Hfirst as [Hin Hmin].
      destruct (Player_score st p <? Player_score st first) eqn:Hlt.
      * apply Z.ltb_lt in Hlt. split; [|right; discriminate].
        assert (Hp : least_score st pre p = true).
        { apply forallb_forall. intros q Hq. apply Z.leb_le.
          pose proof (least_score_le _ _ _ _ Hmin Hq). lia. }
        rewrite Hp.
        rewrite (List.filter_ext_in _ (fun _ => false)); [|].
        -- assert (Hnone : forall l : list Player, List.filter (fun _ => false) l = [])
             by (induction l; auto).
           rewrite Hnone. reflexivity.
        -- intros q Hq. rewrite least_score_snoc.
           destruct (least_score st pre q) eqn:Hq'; [|reflexivity]. simpl.
           apply Z.leb_gt.
           pose proof (least_score_le _ _ _ _ Hmin Hq). lia.
      * apply Z.ltb_ge in Hlt.
        assert (Hsame : List.filter (least_score st (pre ++ [p])) pre
                        = first :: rest).
        { rewrite IH. apply List.filter_ext_in. intros q Hq.
          rewrite least_score_snoc.
          destruct (least_score st pre q) eqn:Hq'; [|reflexivity]. simpl.
          apply Z.leb_le.
          pose proof (least_score_le _ _ _ _ Hq' Hin). lia. }
        rewrite Hsame.
        destruct (Player_score st p =? Player_score st first) eqn:Heq.
        -- apply Z.eqb_eq in Heq. split; [|right; discriminate].
           assert (Hp : least_score st pre p = true).
           { apply forallb_forall. intros q Hq. apply Z.leb_le.
             pose proof (least_score_le _ _ _ _ Hmin Hq). lia. }
           rewrite Hp. reflexivity.
        -- apply Z.eqb_neq in Heq. split; [|right; discriminate].
           assert (Hp : least_score st pre p = false).
           { apply not_true_is_false. intros Hp.
             pose proof (least_score_le _ _ _ _ Hp Hin). lia. }
           rewrite Hp. rewrite app_nil_r. reflexivity.
Qed.

(** ** The five strategies answer with valid selections *)

Lemma drawn_from_valid (dice sel : list Dice) :
  drawn_from dice sel -> valid_selection dice sel.
Proof.
  intros [Hne Hsub]. apply sublist_length in Hsub.
  unfold valid_selection, len. destruct sel; [congruence|].
  cbn [length] in *. lia.
Qed.

Lemma filter_sublist_of (rule : Dice -> bool) (dice : list Dice) :
  List.filter rule dice `sublist_of` dice.
Proof.
  induction dice as [|d dice IH]; simpl; [constructor|].
  destruct (rule d); [apply sublist_skip | apply sublist_cons]; exact IH.
Qed.

Lemma singleton_sublist_of (dice : list Dice) (d : Dice) :
  In d dice -> [d] `sublist_of` dice.
Proof.
  intros Hd. apply in_split in Hd as (pre & post & ->).
  apply sublist_inserts_l. apply sublist_skip, sublist_nil_l.
Qed.

Lemma rule_or_lowest_drawn (rule : Dice -> bool) (dice sel : list Dice) :
  rule_or_lowest rule dice sel -> drawn_from dice sel.
Proof.
  intros [[Hne ->]|(_ & d & -> & Hin & _)].
  - split; [exact Hne | apply filter_sublist_of].
  - split; [discriminate | apply singleton_sublist_of, Hin].
Qed.

Lemma RandomStrategy_answers : answers drawn_from RandomStrategy.
Proof.
  intros st game player dice g Hne. cbn [call RandomStrategy].
  destruct dice as [|x rest]; [congruence|].
  unfold choice, randbelow.
  eexists. eexists. split; [reflexivity|].
  split; [discriminate|]. apply singleton_sublist_of, nth_In.
  apply Nat.mod_upper_bound. discriminate.
Qed.

Lemma rule_strategy_answers
    (f : Store -> GameView -> loc -> list Dice -> Outcome (list Dice))
    (name : string) :
  (forall st game player dice,
      exists rule, f st game player dice = or_lowest (List.filter rule dice) dice) ->
  answers drawn_from {| class_name := name; call := pure_strategy f |}.
Proof.
  intros Hf st game player dice g Hne. cbn [call]. unfold pure_strategy.
  destruct (Hf st game player dice) as (rule & ->).
  destruct (or_lowest_spec rule dice Hne) as (sel & -> & Hsel).
  exists sel, g. split; [reflexivity|].
  apply (rule_or_lowest_drawn rule), first_lowest_is_lowest, Hsel.
Qed.

Lemma defined_strategy_answers (s : Strategy) :
  defined_strategy s -> answers drawn_from s.
Proof.
  intros [->|[->|[->|[->| ->]]]].
  - apply RandomStrategy_answers.
  - apply rule_strategy_answers. intros. eexists. apply SimpleStrategy_call_spec.
  - apply rule_strategy_answers. intros. eexists. apply KeepOnesStrategy_call_spec.
  - apply rule_strategy_answers. intros. eexists.
    apply KeepOnesAndTwosStrategy_call_spec.
  - apply rule_strategy_answers. intros. eexists.
    apply KeepOnesUnlessLosingStrategy_call_spec.
Qed.

(** ** Playing a game *)

Lemma Game_play_spec (Q : list Dice -> list Dice -> Prop) (fuel : nat)
    (game : Game) (w : World) :
  (forall dice sel, Q dice sel -> valid_selection dice sel) ->
  NUM_DICE <= Z.of_nat fuel ->
  Forall (fun p => answers Q (strategy p)) (players game) ->
  Forall (fun p => len (kept_dice (store w (turn p))) <= NUM_DICE) (players game) ->
  exists groups w',
    Game_play fuel game w
    = (Return (List.filter (least_score (store w') (players game)) (players game)), w') /\
    played Q (store w) (players game) groups (store w') /\
    log w' = log w ++ concat groups /\
    rolled w' = (rolled w + dice_offered (concat groups))%nat.
Proof.
  intros HQ Hfuel Hans Hcap.
  destruct (take_turns_spec Q HQ fuel game (players game) w Hfuel Hans Hcap)
    as (groups & w' & Hturns & Hplayed & Hlog & Hrolled).
  exists groups, w'. unfold Game_play, bind. rewrite Hturns.
  unfold collect_winners. rewrite (proj1 (winners_loop_spec _ _)). auto.
Qed.

(** C8: in a game whose players use the strategies the program defines
    and whose turns hold at most [NUM_DICE] dice, [play] returns normally:
    no [keep] raises. Every strategy call of the run was offered exactly
    the dice its turn still missed, between 1 and [NUM_DICE] of them, and
    returned a non-empty selection drawn from the offered dice. *)
Theorem defined_strategies_never_fail_keep (fuel : nat) (game : Game) (w : World) :
  NUM_DICE <= Z.of_nat fuel ->
  Forall (fun p => defined_strategy (strategy p)) (players game) ->
  Forall (fun p => len (kept_dice (store w (turn p))) <= NUM_DICE) (players game) ->
  exists winners w' groups,
    Game_play fuel game w = (Return winners, w') /\
    played drawn_from (store w) (players game) groups (store w') /\
    log w' = log w ++ concat groups /\
    Forall (fun r => 1 <= len (offered r) <= NUM_DICE /\
                     1 <= len (chosen r) <= len (offered r) /\
                     chosen r `sublist_of` offered r) (concat groups).
Proof.
  intros Hfuel Hdef Hcap.
  assert (Hans : Forall (fun p => answers drawn_from (strategy p)) (players game)).
  { eapply Forall_impl; [|exact Hdef]. intros p. apply defined_strategy_answers. }
  destruct (Game_play_spec drawn_from fuel game w drawn_from_valid Hfuel Hans Hcap)
    as (groups & w' & Hplay & Hplayed & Hlog & _).
  eexists. exists w', groups. split; [exact Hplay|]. split; [exact Hplayed|].
  split; [exact Hlog|].
  eapply Forall_impl; [|apply (played_rounds _ _ _ _ _ Hplayed)].
  simpl. intros r (Hoff & [_ Hsub] & Hval). auto.
Qed.

Lemma defined_strategies_never_fail_keep_witness :
  exists winners w' groups,
    Game_play 5 duel fresh_world = (Return winners, w') /\
    played drawn_from (store fresh_world) (players duel) groups (store w') /\
    log w' = log fresh_world ++ concat groups /\
    Forall (fun r => 1 <= len (offered r) <= NUM_DICE /\
                     1 <= len (chosen r) <= len (offered r) /\
                     chosen r `sublist_of` offered r) (concat groups).
Proof.
  apply defined_strategies_never_fail_keep.
  - vm_compute. discriminate.
  - constructor; [right; right; right; right; reflexivity|].
    constructor; [right; left; reflexivity | constructor].
  - repeat constructor; vm_compute; discriminate.
Defined.

(** C1: in a game whose strategies always return a valid selection and
    whose turns hold at most [NUM_DICE] dice, [play] returns normally, with
    every player's turn over; the strategy calls of the run form one block
    per player, in the order of the players, each block made of that
    player's rounds only; and the winners are exactly the players whose
    score no player undercuts, in the order of the players. *)
Theorem play_returns_the_lowest_scorers (fuel : nat) (game : Game) (w : World) :
  NUM_DICE <= Z.of_nat fuel ->
  Forall (fun p => answers valid_selection (strategy p)) (players game) ->
  Forall (fun p => len (kept_dice (store w (turn p))) <= NUM_DICE) (players game) ->
  exists winners w' groups,
    Game_play fuel game w = (Return winners, w') /\
    Forall (fun p => over (store w' (turn p)) = true) (players game) /\
    log w' = log w ++ concat groups /\
    Forall2 (fun p rounds => Forall (fun r => who r = turn p) rounds)
            (players game) groups /\
    winners = List.filter (least_score (store w') (players game)) (players game) /\
    (forall p, In p winners <->
               In p (players game) /\
               forall q, In q (players game) ->
                         Player_score (store w') p <= Player_score (store w') q).
Proof.
  intros Hfuel Hans Hcap.
  destruct (Game_play_spec valid_selection fuel game w (fun _ _ H => H) Hfuel Hans Hcap)
    as (groups & w' & Hplay & Hplayed & Hlog & _).
  eexists. exists w', groups. split; [exact Hplay|].
  split; [apply (played_all_over _ _ _ _ _ Hplayed)|].
  split; [exact Hlog|].
  split; [apply (played_in_order _ _ _ _ _ Hplayed)|].
  split; [reflexivity|].
  intros p. rewrite filter_In. unfold least_score. rewrite forallb_forall.
  split; intros [Hin Hmin]; (split; [exact Hin|]); intros q Hq.
  - apply Z.leb_le, Hmin, Hq.
  - apply Z.leb_le, Hmin, Hq.
Qed.

Lemma answers_weaken (Q Q' : list Dice -> list Dice -> Prop) (s : Strategy) :
  (forall dice sel, Q dice sel -> Q' dice sel) -> answers Q s -> answers Q' s.
Proof.
  intros HQ Hans st game player dice g Hne.
  destruct (Hans st game player dice g Hne) as (sel & g' & Hcall & Hsel).
  exists sel, g'. auto.
Qed.

Lemma defined_strategy_valid (s : Strategy) :
  defined_strategy s -> answers valid_selection s.
Proof.
  intros Hs. apply (answers_weaken drawn_from); [apply drawn_from_valid|].
  apply defined_strategy_answers, Hs.
Qed.

Lemma play_returns_the_lowest_scorers_witness :
  exists winners w' groups,
    Game_play 5 duel fresh_world = (Return winners, w') /\
    Forall (fun p => over (store w' (turn p)) = true) (players duel) /\
    log w' = log fresh_world ++ concat groups /\
    Forall2 (fun p rounds => Forall (fun r => who r = turn p) rounds)
            (players duel) groups /\
    winners = List.filter (least_score (store w') (players duel)) (players duel) /\
    (forall p, In p winners <->
               In p (players duel) /\
               forall q, In q (players duel) ->
                         Player_score (store w') p <= Player_score (store w') q).
Proof.
  apply play_returns_the_lowest_scorers.
  - vm_compute. discriminate.
  - constructor; [apply defined_strategy_valid; right; right; right; right; reflexivity|].
    constructor; [apply defined_strategy_valid; right; left; reflexivity | constructor].
  - repeat constructor; vm_compute; discriminate.
Defined.

Example winners_of_scores_4_4_7 :
  map (Player_score (store finished_4_4_7)) [player_A; player_B; player_C] = [4; 4; 7] /\
  fst (Game_play 5 {| players := [player_A; player_B; player_C] |} finished_4_4_7)
  = Return [player_A; player_B].
Proof. split; reflexivity. Qed.

(** ** Counting the rolls *)

Lemma dice_offered_app (r1 r2 : list Round) :
  dice_offered (r1 ++ r2) = (dice_offered r1 + dice_offered r2)%nat.
Proof. unfold dice_offered. rewrite map_app, list_sum_app. reflexivity. Qed.

Lemma played_fresh (Q : list Dice -> list Dice -> Prop) (st st' : Store)
    (ps : list Player) (groups : list (list Round)) :
  (forall dice sel, Q dice sel -> valid_selection dice sel) ->
  played Q st ps groups st' ->
  List.NoDup (map turn ps) ->
  Forall (fun p => kept_dice (st (turn p)) = []) ps ->
  Forall2 (fun p rounds => fills Q (turn p) 0 rounds) ps groups /\
  len ps * NUM_DICE <= Z.of_nat (dice_offered (concat groups))
                    <= len ps * triangle NUM_DICE.
Proof.
  intros HQ H.
  induction H as [|st st1 st' p ps rounds groups Hfills Hkept Hother Hrest IH];
    intros Hnd Hfresh.
  - split; [constructor|]. unfold len, dice_offered. simpl. lia.
  - inversion Hfresh as [|? ? Hp Hps]; subst.
    simpl in Hnd. inversion Hnd as [|? ? Hnotin Hnd']; subst.
    clear Hnd. rename Hnd' into Hnd.
    rewrite Hp in Hfills. change (len (@nil Dice)) with 0 in Hfills.
    assert (Hfresh1 : Forall (fun q => kept_dice (st1 (turn q)) = []) ps).
    { rewrite Forall_forall in Hps. apply Forall_forall. intros q Hq.
      rewrite Hother; [apply Hps, Hq|].
      intros Heq. apply Hnotin. rewrite <- Heq. apply in_map, Hq. }
    destruct (IH Hnd Hfresh1) as [Hall Hbound].
    split; [constructor; assumption|].
    pose proof (fills_offered Q _ _ _ Hfills) as Hhead.
    rewrite Z.sub_0_r in Hhead.
    cbn [concat]. rewrite dice_offered_app, Nat2Z.inj_add.
    unfold len in *. cbn [length]. rewrite Nat2Z.inj_succ. lia.
Qed.

(** C3, as the program has it: every round rolls one die for each slot
    the acting player's turn still misses, so in a game of N distinct
    players that start with empty turns and whose strategies return valid
    selections, [play] ends with exactly [NUM_DICE] kept dice per player and
    has rolled between N * [NUM_DICE] and N * [NUM_DICE] * ([NUM_DICE] + 1) / 2
    dice, as many as its rounds offered. *)
Theorem play_rolls_the_missing_dice_each_round (fuel : nat) (game : Game) (w : World) :
  NUM_DICE <= Z.of_nat fuel ->
  Forall (fun p => answers valid_selection (strategy p)) (players game) ->
  List.NoDup (map turn (players game)) ->
  Forall (fun p => kept_dice (store w (turn p)) = []) (players game) ->
  exists winners w' groups,
    Game_play fuel game w = (Return winners, w') /\
    log w' = log w ++ concat groups /\
    Forall2 (fun p rounds => fills valid_selection (turn p) 0 rounds)
            (players game) groups /\
    rolled w' = (rolled w + dice_offered (concat groups))%nat /\
    Forall (fun p => len (kept_dice (store w' (turn p))) = NUM_DICE) (players game) /\
    len (players game) * NUM_DICE
    <= Z.of_nat (rolled w' - rolled w)
    <= len (players game) * triangle NUM_DICE.
Proof.
  intros Hfuel Hans Hnd Hfresh.
  assert (Hcap : Forall (fun p => len (kept_dice (store w (turn p))) <= NUM_DICE)
                        (players game)).
  { eapply Forall_impl; [|exact Hfresh]. simpl. intros p ->. vm_compute. discriminate. }
  destruct (Game_play_spec valid_selection fuel game w (fun _ _ H => H) Hfuel Hans Hcap)
    as (groups & w' & Hplay & Hplayed & Hlog & Hrolled).
  destruct (played_fresh _ _ _ _ _ (fun _ _ H => H) Hplayed Hnd Hfresh) as [Hall Hbound].
  eexists. exists w', groups. split; [exact Hplay|].
  split; [exact Hlog|]. split; [exact Hall|]. split; [exact Hrolled|]. split.
  - eapply Forall_impl; [|apply (played_all_over _ _ _ _ _ Hplayed)].
    simpl. intros p Hp. apply Z.eqb_eq, Hp.
  - rewrite Hrolled.
    replace (rolled w + dice_offered (concat groups) - rolled w)%nat
      with (dice_offered (concat groups)) by lia.
    exact Hbound.
Qed.

Lemma play_rolls_the_missing_dice_each_round_witness :
  exists winners w' groups,
    Game_play 5 duel fresh_world = (Return winners, w') /\
    log w' = log fresh_world ++ concat groups /\
    Forall2 (fun p rounds => fills valid_selection (turn p) 0 rounds)
            (players duel) groups /\
    rolled w' = (rolled fresh_world + dice_offered (concat groups))%nat /\
    Forall (fun p => len (kept_dice (store w' (turn p))) = NUM_DICE) (players duel) /\
    len (players duel) * NUM_DICE
    <= Z.of_nat (rolled w' - rolled fresh_world)
    <= len (players duel) * triangle NUM_DICE.
Proof.
  apply play_rolls_the_missing_dice_each_round.
  - vm_compute. discriminate.
  - constructor; [apply defined_strategy_valid; right; right; right; right; reflexivity|].
    constructor; [apply defined_strategy_valid; right; left; reflexivity | constructor].
  - cbn. constructor; [intros [H|[]]; discriminate|].
    constructor; [intros [] | constructor].
  - repeat constructor.
Defined.

(** C3, as it is worded, fails: a single [SimpleStrategy] player that keeps
    one die in each round has 5 + 4 + 3 + 2 + 1 = 15 dice rolled, not 5. *)
Lemma play_rolls_more_than_one_die_per_slot :
  fst (Game_play 5 solo fresh_world) = Return [simple_player] /\
  map (fun r => (dice_of_faces (offered r), dice_of_faces (chosen r)))
      (log (snd (Game_play 5 solo fresh_world)))
  = [([1; 2; 3; 4; 5], [3]); ([6; 1; 2; 3], [3]); ([4; 5; 6], [4]);
     ([1; 2], [1]); ([3], [3])] /\
  rolled (snd (Game_play 5 solo fresh_world)) = 15%nat /\
  rolled (snd (Game_play 5 solo fresh_world))
  <> (rolled fresh_world + length (players solo) * Z.to_nat NUM_DICE)%nat.
Proof.
  repeat split; try reflexivity. vm_compute. discriminate.
Qed.

(** * Further properties *)

(** ** What no strategy can make a game do *)

Lemma advances_refl (ts : list loc) (w : World) : advances ts w w.
Proof.
  split; [intros l; reflexivity|]. split; [auto|]. split; [auto|].
  exists []. rewrite app_nil_r. split; [reflexivity|]. split; [constructor|].
  unfold dice_offered. simpl. lia.
Qed.

Lemma advances_trans (ts : list loc) (w1 w2 w3 : World) :
  advances ts w1 w2 -> advances ts w2 w3 -> advances ts w1 w3.
Proof.
  intros (Hp1 & Hc1 & Ho1 & r1 & Hl1 & Hf1 & Hr1)
         (Hp2 & Hc2 & Ho2 & r2 & Hl2 & Hf2 & Hr2).
  split; [|split; [|split]].
  - intros l. destruct (Hp1 l) as [k1 E1]. destruct (Hp2 l) as [k2 E2].
    exists (k1 ++ k2). rewrite E2, E1, app_assoc. reflexivity.
  - intros l Hl. apply Hc2, Hc1, Hl.
  - intros l Hl. rewrite Ho2, Ho1 by exact Hl. reflexivity.
  - exists (r1 ++ r2). split; [|split].
    + rewrite Hl2, Hl1, app_assoc. reflexivity.
    + apply Forall_app. split; assumption.
    + rewrite dice_offered_app. lia.
Qed.

Lemma advances_widen (ts ts' : list loc) (w w' : World) :
  (forall l, In l ts -> In l ts') -> advances ts w w' -> advances ts' w w'.
Proof.
  intros Hsub (Hp & Hc & Ho & r & Hl & Hf & Hr).
  split; [exact Hp|]. split; [exact Hc|]. split.
  - intros l Hl'. apply Ho. intros Hin. apply Hl', Hsub, Hin.
  - exists r. split; [exact Hl|]. split; [|exact Hr].
    eapply Forall_impl; [|exact Hf]. simpl. intros x [Hin Hx]. auto.
Qed.

Lemma rolled_faces_ok (g : Random) (n : nat) :
  Forall faces_ok (map die_of_draw (next_draws g n)).
Proof.
  apply Forall_forall. intros d Hd. apply in_map_iff in Hd as (r & <- & _).
  apply face_of_draw_range.
Qed.

Lemma do_round_advances (p : Player) (game : Game) (w : World) :
  advances [turn p] w (snd (Player_do_round p game w)).
Proof.
  unfold Player_do_round, bind, Turn_roll. rewrite roll_dice_spec.
  set (n := Z.to_nat (NUM_DICE - len (kept_dice (store w (turn p))))).
  set (dice := map die_of_draw (next_draws (rng w) n)).
  assert (Hdice : length dice = n)
    by (unfold dice; rewrite length_map; apply next_draws_length).
  unfold invoke. cbn [store rng rolled log].
  destruct (call (strategy p) (store w) (map turn (players game)) (turn p) dice _)
    as [[sel|e|] g].
  - unfold Turn_keep. cbn [store rng rolled log].
    assert (Hlog : exists rounds,
               log w ++ [{| who := turn p; offered := dice; chosen := sel |}]
               = log w ++ rounds /\
               Forall (fun r => In (who r) [turn p] /\ Forall faces_ok (offered r))
                      rounds /\
               (rolled w + dice_offered rounds <= rolled w + n)%nat).
    { eexists. split; [reflexivity|]. split.
      - constructor; [|constructor]. cbn [who offered]. split; [left; reflexivity|].
        apply rolled_faces_ok.
      - unfold dice_offered. cbn [map offered]. rewrite Hdice.
        cbn [list_sum fold_right]. lia. }
    destruct (fits_dec (store w (turn p)) sel) as [Hf|Hf].
    + rewrite (keep_fits _ _ Hf). unfold set_turn, advances.
      cbn [snd store rng rolled log].
      split; [|split; [|split]]; [| | |exact Hlog].
      * intros l. destruct (Nat.eq_dec l (turn p)) as [->|Hne].
        -- rewrite store_insert_eq. exists sel. reflexivity.
        -- rewrite store_insert_ne by congruence. reflexivity.
      * intros l Hl. destruct (Nat.eq_dec l (turn p)) as [->|Hne].
        -- rewrite store_insert_eq. cbn [kept_dice]. rewrite len_app.
           unfold fits in Hf. lia.
        -- rewrite store_insert_ne by congruence. exact Hl.
      * intros l Hl. apply store_insert_ne. intros Heq. apply Hl. left. exact Heq.
    + rewrite (keep_unfit _ _ Hf). unfold advances. cbn [snd store rng rolled log].
      split; [intros l; reflexivity|]. split; [auto|]. split; [auto|]. exact Hlog.
  - cbn [snd]. split; [intros l; reflexivity|]. split; [auto|]. split; [auto|].
    cbn [store rng rolled log].
    exists []. rewrite app_nil_r. split; [reflexivity|]. split; [constructor|].
    unfold dice_offered. simpl. lia.
  - cbn [snd]. split; [intros l; reflexivity|]. split; [auto|]. split; [auto|].
    cbn [store rng rolled log].
    exists []. rewrite app_nil_r. split; [reflexivity|]. split; [constructor|].
    unfold dice_offered. simpl. lia.
Qed.

Lemma finish_turn_advances (fuel : nat) (p : Player) (game : Game) (w : World) :
  advances [turn p] w (snd (finish_turn fuel p game w)).
Proof.
  revert w. induction fuel as [|fuel IH]; intros w; cbn [finish_turn].
  - destruct (over (store w (turn p))); apply advances_refl.
  - destruct (over (store w (turn p))); [apply advances_refl|].
    unfold bind. pose proof (do_round_advances p game w) as Hround.
    destruct (Player_do_round p game w) as [[[]|e|] w1]; cbn [snd] in *.
    + eapply advances_trans; [exact Hround | apply IH].
    + exact Hround.
    + exact Hround.
Qed.

Lemma take_turns_advances (fuel : nat) (game : Game) (ps : list Player) (w : World) :
  advances (map turn ps) w
           (snd (for_each ps (fun player => finish_turn fuel player game) w)).
Proof.
  revert w. induction ps as [|p ps IH]; intros w; cbn [for_each].
  - apply advances_refl.
  - unfold bind. pose proof (finish_turn_advances fuel p game w) as Hturn.
    apply (advances_widen _ (map turn (p :: ps))) in Hturn;
      [|intros l [<-|[]]; left; reflexivity].
    destruct (finish_turn fuel p game w) as [[[]|e|] w1]; cbn [snd] in *;
      try exact Hturn.
    eapply advances_trans; [exact Hturn|].
    eapply advances_widen; [|apply IH]. intros l Hl. right. exact Hl.
Qed.

Lemma Game_play_advances (fuel : nat) (game : Game) (w : World) :
  advances (map turn (players game)) w (snd (Game_play fuel game w)).
Proof.
  unfold Game_play, bind.
  pose proof (take_turns_advances fuel game (players game) w) as H.
  destruct (for_each (players game) _ w) as [[[]|e|] w1]; cbn [snd] in *;
    exact H.
Qed.

(** X1: for strategies that only read the game and the player they are
    handed, as every strategy class of the program does and as [Strategy]
    has them: whatever such strategies return or raise and whatever the
    budget of iterations, [play] only ever extends kept dice, keeps every
    turn that is within capacity within capacity, leaves the turns of
    players outside the game alone, and offers only dice showing 1 to 6 to
    the strategies of its own players, each of them counted as rolled. *)
Theorem play_stays_within_the_game (fuel : nat) (game : Game) (w : World) :
  let w' := snd (Game_play fuel game w) in
  (forall l, kept_dice (store w l) `prefix_of` kept_dice (store w' l)) /\
  (forall l, len (kept_dice (store w l)) <= NUM_DICE ->
             len (kept_dice (store w' l)) <= NUM_DICE) /\
  (forall l, ~ In l (map turn (players game)) -> store w' l = store w l) /\
  exists rounds,
    log w' = log w ++ rounds /\
    Forall (fun r => In (who r) (map turn (players game)) /\
                     Forall faces_ok (offered r)) rounds /\
    (rolled w + dice_offered rounds <= rolled w')%nat.
Proof.
  intros w'.
  pose proof (Game_play_advances fuel game w) as (Hgrow & Hcap & Hout & Hlog).
  split; [exact Hgrow|]. split; [exact Hcap|]. split; [exact Hout | exact Hlog].
Qed.

(** ** Failures *)

Lemma finish_turn_over (fuel : nat) (p : Player) (game : Game) (w : World) :
  over (store w (turn p)) = true -> finish_turn fuel p game w = (Return tt, w).
Proof. intros H. destruct fuel; cbn [finish_turn]; rewrite H; reflexivity. Qed.

Lemma take_turns_skip (fuel : nat) (game : Game) (done more : list Player) (w : World) :
  Forall (fun q => over (store w (turn q)) = true) done ->
  for_each (done ++ more) (fun player => finish_turn fuel player game) w
  = for_each more (fun player => finish_turn fuel player game) w.
Proof.
  induction 1 as [|q done Hq Hdone IH]; [reflexivity|].
  cbn [app for_each]. unfold bind at 1. rewrite (finish_turn_over _ _ _ _ Hq).
  exact IH.
Qed.

Lemma play_aborts (fuel : nat) (game : Game) (w w1 : World) (p : Player)
    (done rest : list Player) (e : Error) :
  players game = done ++ p :: rest ->
  Forall (fun q => over (store w (turn q)) = true) done ->
  over (store w (turn p)) = false ->
  Player_do_round p game w = (Raise e, w1) ->
  Game_play (S fuel) game w = (Raise e, w1).
Proof.
  intros Hps Hdone Hp Hround. unfold Game_play. unfold bind at 1.
  rewrite Hps, (take_turns_skip _ _ _ _ _ Hdone). cbn [for_each finish_turn].
  unfold bind at 1. rewrite Hp. unfold bind at 1. rewrite Hround. reflexivity.
Qed.

Lemma not_over_lt (t : Turn) :
  len (kept_dice t) < NUM_DICE -> over t = false.
Proof. intros H. unfold over. apply Z.eqb_neq. lia. Qed.

(** X2: the abstract base strategy cannot play. As soon as the turn of a
    player using it comes up unfinished, [play] raises [TypeError]: the
    missing dice have been rolled, but no turn has changed and no strategy
    call is logged. *)
Theorem abstract_strategy_raises_TypeError (fuel : nat) (game : Game) (w : World)
    (p : Player) (done rest : list Player) :
  players game = done ++ p :: rest ->
  Forall (fun q => over (store w (turn q)) = true) done ->
  over (store w (turn p)) = false ->
  strategy p = BaseStrategy ->
  exists w',
    Game_play (S fuel) game w = (Raise TypeError, w') /\
    store w' = store w /\
    log w' = log w /\
    rolled w' = (rolled w + Z.to_nat (NUM_DICE - len (kept_dice (store w (turn p)))))%nat.
Proof.
  intros Hps Hdone Hp Hs.
  destruct (roll_returns_the_missing_dice_aux (turn p) w)
    as (dice & w1 & Hroll & Hlen & Hst & Hlog & Hrolled).
  eexists. split.
  - eapply play_aborts; eauto.
    unfold Player_do_round, bind. rewrite Hroll. unfold invoke. rewrite Hs.
    cbn [call BaseStrategy]. unfold pure_strategy. reflexivity.
  - cbn [store rng rolled log]. rewrite <- Hlen. auto.
Qed.

Lemma abstract_strategy_raises_TypeError_witness :
  exists w',
    Game_play 5 {| players := [abstract_player; simple_player] |} fresh_world
    = (Raise TypeError, w') /\
    store w' = store fresh_world /\
    log w' = log fresh_world /\
    rolled w' = (rolled fresh_world
                 + Z.to_nat (NUM_DICE
                             - len (kept_dice (store fresh_world (turn abstract_player)))))%nat.
Proof.
  apply (abstract_strategy_raises_TypeError 4 _ fresh_world abstract_player
           [] [simple_player]).
  - reflexivity.
  - constructor.
  - reflexivity.
  - reflexivity.
Defined.

Lemma for_each_app {A : Type} (l1 l2 : list A) (body : A -> M unit) (w : World) :
  for_each (l1 ++ l2) body w
  = (for_each l1 body ;;; for_each l2 body) w.
Proof.
  revert w. induction l1 as [|x l1 IH]; intros w; [reflexivity|].
  cbn [app for_each]. unfold bind at 1 2 3.
  destruct (body x w) as [[[]|e|] w1]; [|reflexivity|reflexivity].
  rewrite IH. reflexivity.
Qed.

Lemma played_outside (Q : list Dice -> list Dice -> Prop) (st st' : Store)
    (ps : list Player) (groups : list (list Round)) :
  played Q st ps groups st' ->
  forall l, ~ In l (map turn ps) -> st' l = st l.
Proof.
  induction 1 as [|st st1 st' p ps rounds groups Hfills Hkept Hother Hrest IH];
    intros l Hl; [reflexivity|].
  rewrite IH by (intros Hin; apply Hl; right; exact Hin).
  apply Hother. intros ->. apply Hl. left. reflexivity.
Qed.

Lemma rounds_of_players (ps : list Player) (groups : list (list Round)) :
  Forall2 (fun p rounds => Forall (fun r => who r = turn p) rounds) ps groups ->
  Forall (fun r => In (who r) (map turn ps)) (concat groups).
Proof.
  induction 1 as [|p rounds ps groups Hp Hrest IH]; [constructor|].
  cbn [concat map]. apply Forall_app. split.
  - eapply Forall_impl; [|exact Hp]. simpl. intros r ->. left. reflexivity.
  - eapply Forall_impl; [|exact IH]. simpl. intros r Hr. right. exact Hr.
Qed.

(** X3: a strategy that returns a selection failing the size check (none
    of the offered dice, or more than were offered) makes [play] raise
    [AssertionError] at the first round of its player: the players before
    it, playing valid selections on turns of their own, have completed
    their turns; then the missing dice of the player are rolled and the
    selection is returned and logged, but nothing is kept, and no turn but
    those of the players before it has changed. *)
Theorem misbehaving_strategy_fails_the_assertion (fuel : nat) (game : Game)
    (w : World) (p : Player) (done rest : list Player) :
  NUM_DICE <= Z.of_nat fuel ->
  players game = done ++ p :: rest ->
  Forall (fun q => answers valid_selection (strategy q)) done ->
  Forall (fun q => len (kept_dice (store w (turn q))) <= NUM_DICE) done ->
  ~ In (turn p) (map turn done) ->
  len (kept_dice (store w (turn p))) < NUM_DICE ->
  misbehaves (strategy p) ->
  exists w' earlier r,
    Game_play fuel game w = (Raise AssertionError, w') /\
    Forall (fun q => over (store w' (turn q)) = true) done /\
    (forall l, ~ In l (map turn done) -> store w' l = store w l) /\
    log w' = log w ++ earlier ++ [r] /\
    Forall (fun r' => In (who r') (map turn done)) earlier /\
    who r = turn p /\
    len (offered r) = NUM_DICE - len (kept_dice (store w (turn p))) /\
    ~ valid_selection (offered r) (chosen r).
Proof.
  intros Hfuel Hps Hans Hcap Hown Hp Hbad.
  destruct (take_turns_spec valid_selection (fun _ _ H => H) fuel game done w
              Hfuel Hans Hcap)
    as (groups & w1 & Hturns & Hplayed & Hlog1 & _).
  pose proof (played_outside _ _ _ _ _ Hplayed) as Hout.
  assert (Hp1 : store w1 (turn p) = store w (turn p)) by (apply Hout, Hown).
  destruct (roll_returns_the_missing_dice_aux (turn p) w1)
    as (dice & w2 & Hroll & Hlen & Hst & Hlog & Hrolled).
  destruct w2 as [st2 g2 k2 lg2]. cbn [store rng rolled log] in *. subst st2 lg2.
  destruct (Hbad (store w1) (map turn (players game)) (turn p) dice g2)
    as (sel & g' & Hcall & Hsel).
  assert (Hoffer : len dice = NUM_DICE - len (kept_dice (store w (turn p)))).
  { unfold len in *. rewrite Hlen, Hp1. lia. }
  assert (Hunfit : ~ fits (store w1 (turn p)) sel).
  { unfold fits, valid_selection in *. intros Hf. apply Hsel.
    rewrite Hoffer, <- Hp1. exact Hf. }
  destruct fuel as [|fuel]; [unfold NUM_DICE in Hfuel; lia|].
  eexists. exists (concat groups), {| who := turn p; offered := dice; chosen := sel |}.
  split.
  - unfold Game_play. unfold bind at 1. rewrite Hps, for_each_app.
    unfold bind at 1. rewrite Hturns. cbn [for_each finish_turn].
    unfold bind at 1. rewrite (not_over_lt (store w1 (turn p))) by (rewrite Hp1; exact Hp).
    unfold bind at 1. unfold Player_do_round, bind. rewrite Hroll.
    unfold invoke. cbn [store rng rolled log]. rewrite Hcall.
    unfold Turn_keep. cbn [store]. rewrite (keep_unfit _ _ Hunfit). reflexivity.
  - cbn [store rng rolled log who offered chosen].
    split; [apply (played_all_over _ _ _ _ _ Hplayed)|].
    split; [exact Hout|]. split; [rewrite Hlog1, <- app_assoc; reflexivity|].
    split; [apply rounds_of_players, (played_in_order _ _ _ _ _ Hplayed)|].
    auto.
Qed.

Lemma keep_nothing_misbehaves : misbehaves keep_nothing.
Proof.
  intros st game player dice g. exists [], g. split; [reflexivity|].
  unfold valid_selection, len. simpl. lia.
Qed.

Lemma keep_twice_misbehaves : misbehaves keep_twice.
Proof.
  intros st game player dice g. exists (dice ++ dice), g. split; [reflexivity|].
  unfold valid_selection. rewrite len_app. unfold len. destruct dice; simpl; lia.
Qed.

Lemma misbehaving_strategy_fails_the_assertion_witness :
  exists w' earlier r,
    Game_play 5 {| players := [simple_player; idle_player] |} fresh_world
    = (Raise AssertionError, w') /\
    Forall (fun q => over (store w' (turn q)) = true) [simple_player] /\
    (forall l, ~ In l (map turn [simple_player]) ->
               store w' l = store fresh_world l) /\
    log w' = log fresh_world ++ earlier ++ [r] /\
    Forall (fun r' => In (who r') (map turn [simple_player])) earlier /\
    who r = turn idle_player /\
    len (offered r)
    = NUM_DICE - len (kept_dice (store fresh_world (turn idle_player))) /\
    ~ valid_selection (offered r) (chosen r).
Proof.
  apply (misbehaving_strategy_fails_the_assertion
           5 {| players := [simple_player; idle_player] |} fresh_world
           idle_player [simple_player] []).
  - vm_compute. discriminate.
  - reflexivity.
  - constructor; [apply defined_strategy_valid; right; left; reflexivity | constructor].
  - repeat constructor; vm_compute; discriminate.
  - cbn. intros [H|[]]. discriminate.
  - vm_compute. reflexivity.
  - apply keep_nothing_misbehaves.
Defined.

Lemma roll_nothing (w : World) : roll_dice 0 w = (Return [], w).
Proof. reflexivity. Qed.

(** X4: a round on a turn that is already over rolls no die, offers the
    strategy an empty list, and every defined strategy raises on it
    ([IndexError] from [RandomStrategy], [ValueError] from the four that
    take the minimum): nothing at all changes. [play] never gets there
    because its loop tests [over] first. *)
Theorem round_on_a_finished_turn_raises (p : Player) (game : Game) (w : World) :
  over (store w (turn p)) = true ->
  defined_strategy (strategy p) ->
  Player_do_round p game w = (Raise (error_on_no_dice (strategy p)), w).
Proof.
  intros Hov Hdef. unfold over in Hov. apply Z.eqb_eq in Hov.
  unfold Player_do_round, bind, Turn_roll. rewrite Hov, Z.sub_diag.
  change (Z.to_nat 0) with O. rewrite roll_nothing. unfold invoke.
  destruct w as [st g k lg]. cbn [store rng rolled log].
  destruct Hdef as [->|[->|[->|[->| ->]]]]; reflexivity.
Qed.

Lemma round_on_a_finished_turn_raises_witness :
  Player_do_round player_A {| players := [player_A; player_B; player_C] |}
                  finished_4_4_7
  = (Raise (error_on_no_dice (strategy player_A)), finished_4_4_7).
Proof.
  apply round_on_a_finished_turn_raises.
  - reflexivity.
  - right. left. reflexivity.
Defined.

(** ** Playing a finished game *)

Lemma play_finished_game (fuel : nat) (game : Game) (w : World) :
  Forall (fun p => over (store w (turn p)) = true) (players game) ->
  Game_play fuel game w
  = (Return (List.filter (least_score (store w) (players game)) (players game)), w).
Proof.
  intros Hov. unfold Game_play, bind.
  pose proof (take_turns_skip fuel game (players game) [] w Hov) as H.
  rewrite app_nil_r in H. rewrite H. cbn [for_each]. unfold ret, collect_winners.
  rewrite (proj1 (winners_loop_spec _ _)). reflexivity.
Qed.

(** X5: once every player's turn is over, [play] rolls nothing, calls no
    strategy and needs no iteration at all; so playing a game a second time
    returns the same winners as the first time and leaves everything as the
    first game left it. *)
Theorem playing_again_changes_nothing (fuel fuel' : nat) (game : Game) (w : World) :
  NUM_DICE <= Z.of_nat fuel ->
  Forall (fun p => answers valid_selection (strategy p)) (players game) ->
  Forall (fun p => len (kept_dice (store w (turn p))) <= NUM_DICE) (players game) ->
  exists winners w',
    Game_play fuel game w = (Return winners, w') /\
    Game_play fuel' game w' = (Return winners, w').
Proof.
  intros Hfuel Hans Hcap.
  destruct (Game_play_spec valid_selection fuel game w (fun _ _ H => H) Hfuel Hans Hcap)
    as (groups & w' & Hplay & Hplayed & _).
  eexists. exists w'. split; [exact Hplay|].
  apply play_finished_game. apply (played_all_over _ _ _ _ _ Hplayed).
Qed.

Lemma playing_again_changes_nothing_witness :
  exists winners w',
    Game_play 5 duel fresh_world = (Return winners, w') /\
    Game_play 0 duel w' = (Return winners, w').
Proof.
  apply playing_again_changes_nothing.
  - vm_compute. discriminate.
  - constructor; [apply defined_strategy_valid; right; right; right; right; reflexivity|].
    constructor; [apply defined_strategy_valid; right; left; reflexivity | constructor].
  - repeat constructor; vm_compute; discriminate.
Defined.

(** ** Winners *)

Lemma filter_sublist_players (keep : Player -> bool) (ps : list Player) :
  List.filter keep ps `sublist_of` ps.
Proof.
  induction ps as [|p ps IH]; simpl; [constructor|].
  destruct (keep p); [apply sublist_skip | apply sublist_cons]; exact IH.
Qed.

(** X6: whatever the scores, the loop that collects the winners changes
    nothing, returns at least one winner unless the game has no player, and
    returns players of the game, in their order, that all have the same
    score, which no player of the game undercuts. *)
Theorem winners_tie_and_exist (game : Game) (w : World) :
  exists winners,
    collect_winners game w = (Return winners, w) /\
    (winners = [] <-> players game = []) /\
    winners `sublist_of` players game /\
    (forall a b, In a winners -> In b winners ->
                 Player_score (store w) a = Player_score (store w) b) /\
    (forall a q, In a winners -> In q (players game) ->
                 Player_score (store w) a <= Player_score (store w) q).
Proof.
  unfold collect_winners. eexists. split; [reflexivity|].
  destruct (winners_loop_spec (store w) (players game)) as [Hfilter Hne].
  assert (Hmin : forall a q, In a (fold_left (winners_step (store w)) (players game) []) ->
                 In q (players game) ->
                 Player_score (store w) a <= Player_score (store w) q).
  { intros a q Ha Hq. rewrite Hfilter in Ha. apply filter_In in Ha as [_ Ha].
    eapply least_score_le; eauto. }
  assert (Hin : forall a, In a (fold_left (winners_step (store w)) (players game) []) ->
                          In a (players game)).
  { intros a Ha. rewrite Hfilter in Ha. apply filter_In in Ha as [Ha _]. exact Ha. }
  split; [|split; [|split]].
  - split.
    + intros Hnil. destruct Hne as [Hps|Hw]; [exact Hps | contradiction].
    + intros Hps. rewrite Hps. reflexivity.
  - rewrite Hfilter. apply filter_sublist_players.
  - intros a b Ha Hb. pose proof (Hmin a b Ha (Hin b Hb)).
    pose proof (Hmin b a Hb (Hin a Ha)). lia.
  - exact Hmin.
Qed.

(** ** The random strategy *)

Lemma RandomStrategy_answers_one : answers one_of RandomStrategy.
Proof.
  intros st game player dice g Hne. cbn [call RandomStrategy].
  destruct dice as [|x rest]; [congruence|]. unfold choice, randbelow.
  eexists. eexists. split; [reflexivity|]. eexists. split; [reflexivity|].
  apply nth_In, Nat.mod_upper_bound. discriminate.
Qed.

Lemma one_of_valid (dice sel : list Dice) : one_of dice sel -> valid_selection dice sel.
Proof.
  intros (d & -> & Hin). unfold valid_selection, len.
  destruct dice; [destruct Hin|]. simpl. lia.
Qed.

Lemma fills_one_by_one (t : loc) (k : Z) (rounds : list Round) :
  0 <= k ->
  fills one_of t k rounds ->
  Z.of_nat (length rounds) = NUM_DICE - k /\
  2 * Z.of_nat (dice_offered rounds) = (NUM_DICE - k) * (NUM_DICE - k + 1).
Proof.
  intros Hk H. induction H as [|k r rest Hlt Hwho Hoff HQ Hval Hrest IH].
  - rewrite Z.sub_diag. split; reflexivity.
  - destruct HQ as (d & Hsel & _). rewrite Hsel in IH.
    change (len [d]) with 1 in IH. destruct (IH ltac:(lia)) as [IH1 IH2].
    change (dice_offered (r :: rest))
      with (length (offered r) + dice_offered rest)%nat.
    cbn [length]. unfold len in Hoff. rewrite Nat2Z.inj_succ, Nat2Z.inj_add, Hoff.
    split; [lia | nia].
Qed.

(** X8: a [RandomStrategy] player keeps one die per round, so each of N
    distinct such players starting with an empty turn takes exactly
    [NUM_DICE] rounds and has 5 + 4 + 3 + 2 + 1 = 15 dice rolled: [play]
    makes 5 N strategy calls and rolls 15 N dice. *)
Theorem random_players_roll_fifteen_dice_each (fuel : nat) (game : Game) (w : World) :
  NUM_DICE <= Z.of_nat fuel ->
  Forall (fun p => strategy p = RandomStrategy) (players game) ->
  List.NoDup (map turn (players game)) ->
  Forall (fun p => kept_dice (store w (turn p)) = []) (players game) ->
  exists winners w' rounds,
    Game_play fuel game w = (Return winners, w') /\
    log w' = log w ++ rounds /\
    Forall (fun r => one_of (offered r) (chosen r)) rounds /\
    length rounds = (5 * length (players game))%nat /\
    rolled w' = (rolled w + 15 * length (players game))%nat.
Proof.
  intros Hfuel Hrand Hnd Hfresh.
  assert (Hans : Forall (fun p => answers one_of (strategy p)) (players game)).
  { eapply Forall_impl; [|exact Hrand]. simpl. intros p ->.
    apply RandomStrategy_answers_one. }
  assert (Hcap : Forall (fun p => len (kept_dice (store w (turn p))) <= NUM_DICE)
                        (players game)).
  { eapply Forall_impl; [|exact Hfresh]. simpl. intros p ->. vm_compute. discriminate. }
  destruct (Game_play_spec one_of fuel game w one_of_valid Hfuel Hans Hcap)
    as (groups & w' & Hplay & Hplayed & Hlog & Hrolled).
  destruct (played_fresh _ _ _ _ _ one_of_valid Hplayed Hnd Hfresh) as [Hall _].
  assert (Hcount : length (concat groups) = (5 * length (players game))%nat /\
                   dice_offered (concat groups) = (15 * length (players game))%nat).
  { clear -Hall. induction Hall as [|p rounds ps groups Hfills Hrest IH].
    - split; reflexivity.
    - destruct IH as [IH1 IH2].
      destruct (fills_one_by_one (turn p) 0 rounds (Z.le_refl 0) Hfills) as [H1 H2].
      change NUM_DICE with 5 in H1, H2.
      cbn [concat length]. rewrite length_app, dice_offered_app. lia. }
  destruct Hcount as [Hn Hoff].
  eexists. exists w', (concat groups). split; [exact Hplay|].
  split; [exact Hlog|]. split; [|split; [exact Hn|]].
  - eapply Forall_impl; [|apply (played_rounds _ _ _ _ _ Hplayed)].
    simpl. intros r (_ & HQ & _). exact HQ.
  - rewrite Hrolled, Hoff. reflexivity.
Qed.

Lemma random_players_roll_fifteen_dice_each_witness :
  exists winners w' rounds,
    Game_play 5 {| players := [random_player 0%nat; random_player 1%nat] |} fresh_world
    = (Return winners, w') /\
    log w' = log fresh_world ++ rounds /\
    Forall (fun r => one_of (offered r) (chosen r)) rounds /\
    length rounds = (5 * 2)%nat /\
    rolled w' = (rolled fresh_world + 15 * 2)%nat.
Proof.
  apply (random_players_roll_fifteen_dice_each
           5 {| players := [random_player 0%nat; random_player 1%nat] |} fresh_world).
  - vm_compute. discriminate.
  - repeat constructor.
  - cbn. constructor; [intros [H|[]]; discriminate|].
    constructor; [intros [] | constructor].
  - repeat constructor.
Defined.

(** ** The range of the scores *)

Lemma contribution_range (d : Dice) : faces_ok d -> 0 <= contribution d <= 6.
Proof.
  unfold faces_ok, contribution. intros H. destruct (value d =? 3); lia.
Qed.

Lemma score_range (t : Turn) :
  Forall faces_ok (kept_dice t) -> 0 <= score t <= 6 * len (kept_dice t).
Proof.
  unfold score. rewrite score_fold. unfold len.
  induction 1 as [|d l Hd Hl IH].
  - simpl. lia.
  - cbn [map sum_Z fold_right length]. fold (sum_Z (map contribution l)).
    pose proof (contribution_range d Hd). rewrite Nat2Z.inj_succ. lia.
Qed.

Lemma sublist_faces_ok (sel dice : list Dice) :
  sel `sublist_of` dice -> Forall faces_ok dice -> Forall faces_ok sel.
Proof.
  intros Hsub Hdice. apply Forall_forall. intros d Hd.
  rewrite Forall_forall in Hdice. apply Hdice.
  apply list_elem_of_In. eapply elem_of_sublist; [|exact Hsub].
  apply list_elem_of_In, Hd.
Qed.

Lemma chosen_faces_ok (t : loc) (k : Z) (rounds : list Round) :
  fills drawn_from t k rounds ->
  Forall (fun r => Forall faces_ok (offered r)) rounds ->
  Forall faces_ok (dice_chosen rounds).
Proof.
  induction 1 as [|k r rest Hlt Hwho Hoff HQ Hval Hrest IH]; intros Hfaces.
  - constructor.
  - inversion Hfaces as [|? ? Hr Hrest']; subst.
    unfold dice_chosen. cbn [map concat]. apply Forall_app. split.
    + destruct HQ as [_ Hsub]. eapply sublist_faces_ok; eauto.
    + apply IH, Hrest'.
Qed.

Lemma played_faces_ok (st st' : Store) (ps : list Player) (groups : list (list Round)) :
  played drawn_from st ps groups st' ->
  Forall (fun r => Forall faces_ok (offered r)) (concat groups) ->
  forall l, Forall faces_ok (kept_dice (st l)) -> Forall faces_ok (kept_dice (st' l)).
Proof.
  induction 1 as [|st st1 st' p ps rounds groups Hfills Hkept Hother Hrest IH];
    intros Hfaces l Hl; [exact Hl|].
  cbn [concat] in Hfaces. apply Forall_app in Hfaces as [Hhead Htail].
  apply (IH Htail). destruct (Nat.eq_dec l (turn p)) as [->|Hne].
  - rewrite Hkept. apply Forall_app. split; [exact Hl|].
    eapply chosen_faces_ok; eauto.
  - rewrite Hother by exact Hne. exact Hl.
Qed.

(** X9: in a game of the defined strategies whose turns hold at most
    [NUM_DICE] dice showing 1 to 6 (empty turns, for one), every player
    ends with exactly [NUM_DICE] kept dice that all show 1 to 6, and so with
    a score from 0 to 30. *)
Theorem final_scores_are_between_0_and_30 (fuel : nat) (game : Game) (w : World) :
  NUM_DICE <= Z.of_nat fuel ->
  Forall (fun p => defined_strategy (strategy p)) (players game) ->
  Forall (fun p => len (kept_dice (store w (turn p))) <= NUM_DICE /\
                   Forall faces_ok (kept_dice (store w (turn p)))) (players game) ->
  exists winners w',
    Game_play fuel game w = (Return winners, w') /\
    Forall (fun p => len (kept_dice (store w' (turn p))) = NUM_DICE /\
                     Forall faces_ok (kept_dice (store w' (turn p))) /\
                     0 <= Player_score (store w') p <= 30) (players game).
Proof.
  intros Hfuel Hdef Hinit.
  assert (Hans : Forall (fun p => answers drawn_from (strategy p)) (players game)).
  { eapply Forall_impl; [|exact Hdef]. intros p. apply defined_strategy_answers. }
  assert (Hcap : Forall (fun p => len (kept_dice (store w (turn p))) <= NUM_DICE)
                        (players game)).
  { eapply Forall_impl; [|exact Hinit]. simpl. intros p [H _]. exact H. }
  destruct (Game_play_spec drawn_from fuel game w drawn_from_valid Hfuel Hans Hcap)
    as (groups & w' & Hplay & Hplayed & Hlog & _).
  pose proof (Game_play_advances fuel game w) as Hadv. rewrite Hplay in Hadv.
  cbn [snd] in Hadv. destruct Hadv as (_ & _ & _ & rounds & Hlog' & Hrounds & _).
  assert (rounds = concat groups) as ->.
  { apply (app_inv_head (log w)). rewrite <- Hlog', <- Hlog. reflexivity. }
  assert (Hfaces : Forall (fun r => Forall faces_ok (offered r)) (concat groups)).
  { eapply Forall_impl; [|exact Hrounds]. simpl. intros r [_ H]. exact H. }
  pose proof (played_all_over _ _ _ _ _ Hplayed) as Hover.
  eexists. exists w'. split; [exact Hplay|].
  rewrite Forall_forall in Hinit, Hover. apply Forall_forall. intros p Hp.
  destruct (Hinit p Hp) as [_ Hok]. specialize (Hover p Hp).
  unfold over in Hover. apply Z.eqb_eq in Hover.
  pose proof (played_faces_ok _ _ _ _ Hplayed Hfaces _ Hok) as Hok'.
  split; [exact Hover|]. split; [exact Hok'|].
  pose proof (score_range _ Hok') as Hrange. rewrite Hover in Hrange.
  unfold Player_score. change NUM_DICE with 5 in Hrange. lia.
Qed.

Lemma final_scores_are_between_0_and_30_witness :
  exists winners w',
    Game_play 5 duel fresh_world = (Return winners, w') /\
    Forall (fun p => len (kept_dice (store w' (turn p))) = NUM_DICE /\
                     Forall faces_ok (kept_dice (store w' (turn p))) /\
                     0 <= Player_score (store w') p <= 30) (players duel).
Proof.
  apply final_scores_are_between_0_and_30.
  - vm_compute. discriminate.
  - constructor; [right; right; right; right; reflexivity|].
    constructor; [right; left; reflexivity | constructor].
  - repeat constructor; vm_compute; discriminate.
Defined.

(** ** The simulation driver *)

Lemma attempt_body_spec (fuel : nat) (attempt a b : Z) (pr : Process) :
  NUM_DICE <= Z.of_nat fuel ->
  exists a' b' pr',
    attempt_body fuel [SimpleStrategy; KeepOnesUnlessLosingStrategy] attempt
                 (tallies a b) pr
    = (Ok (tallies a' b'), pr') /\
    a <= a' /\ b <= b' /\ a' + b' <= a + b + 1 /\
    stdout pr' = stdout pr ++ (if attempt mod 10000 =? 0
                               then [AttemptLine attempt] else []).
Proof.
  intros Hfuel. unfold attempt_body.
  set (pr0 := if attempt mod 10000 =? 0 then print (AttemptLine attempt) pr else pr).
  assert (Hout : stdout pr0 = stdout pr ++ (if attempt mod 10000 =? 0
                                            then [AttemptLine attempt] else [])).
  { unfold pr0. destruct (attempt mod 10000 =? 0); [reflexivity|].
    symmetry. apply app_nil_r. }
  clearbody pr0. cbn [make_players Player_init str class_name SimpleStrategy
                      KeepOnesUnlessLosingStrategy next_turn world stdout
                      store rng rolled log rev app].
  set (l := next_turn pr0).
  set (p1 := {| name := "SimpleStrategy"; strategy := SimpleStrategy; turn := l |}).
  set (p2 := {| name := "KeepOnesUnlessLosingStrategy";
                strategy := KeepOnesUnlessLosingStrategy; turn := S l |}).
  set (w0 := {| store := <[S l := Turn_init]> (<[l := Turn_init]> (store (world pr0)));
                rng := rng (world pr0); rolled := rolled (world pr0);
                log := log (world pr0) |}).
  assert (Hans : Forall (fun p => answers drawn_from (strategy p))
                        (players (Game_init [p2; p1]))).
  { constructor; [apply defined_strategy_answers; right; right; right; right; reflexivity|].
    constructor; [apply defined_strategy_answers; right; left; reflexivity|constructor]. }
  assert (Hcap : Forall (fun p => len (kept_dice (store w0 (turn p))) <= NUM_DICE)
                        (players (Game_init [p2; p1]))).
  { constructor; [|constructor; [|constructor]]; cbn [store w0 turn p1 p2].
    - rewrite store_insert_eq. vm_compute. discriminate.
    - rewrite store_insert_ne by lia. rewrite store_insert_eq. vm_compute. discriminate. }
  destruct (Game_play_spec drawn_from fuel (Game_init [p2; p1]) w0
              drawn_from_valid Hfuel Hans Hcap) as (groups & w' & Hplay & _).
  change (Game_play fuel (Game_init [p2; p1]) _)
    with (Game_play fuel (Game_init [p2; p1]) w0).
  rewrite Hplay. cbn [players Game_init List.filter].
  destruct (least_score (store w') [p2; p1] p2), (least_score (store w') [p2; p1] p1).
  - exists a, b. eexists. split; [reflexivity|]. cbn [stdout]. repeat split; auto; lia.
  - exists a, (b + 1). eexists. split; [reflexivity|]. cbn [stdout].
    repeat split; auto; lia.
  - exists (a + 1), b. eexists. split; [reflexivity|]. cbn [stdout].
    repeat split; auto; lia.
  - exists a, b. eexists. split; [reflexivity|]. cbn [stdout]. repeat split; auto; lia.
Qed.

Lemma progress_lines_S (first n : nat) :
  progress_lines first (S n)
  = (if Z.of_nat first mod 10000 =? 0 then [AttemptLine (Z.of_nat first)] else [])
    ++ progress_lines (S first) n.
Proof.
  unfold progress_lines. cbn [seq map List.filter].
  destruct (Z.of_nat first mod 10000 =? 0); reflexivity.
Qed.

Lemma attempts_spec (fuel : nat) (n first : nat) (a b : Z) (pr : Process) :
  NUM_DICE <= Z.of_nat fuel ->
  exists a' b' pr',
    attempts fuel [SimpleStrategy; KeepOnesUnlessLosingStrategy] n (Z.of_nat first)
             (tallies a b) pr
    = (Ok (tallies a' b'), pr') /\
    a <= a' /\ b <= b' /\ a' + b' <= a + b + Z.of_nat n /\
    stdout pr' = stdout pr ++ progress_lines first n.
Proof.
  intros Hfuel. revert first a b pr.
  induction n as [|n IH]; intros first a b pr.
  - exists a, b, pr. cbn [attempts]. unfold progress_lines. cbn [seq map List.filter].
    rewrite app_nil_r. repeat split; auto; lia.
  - cbn [attempts].
    destruct (attempt_body_spec fuel (Z.of_nat first) a b pr Hfuel)
      as (a1 & b1 & pr1 & -> & Ha & Hb & Hsum & Hout).
    replace (Z.of_nat first + 1) with (Z.of_nat (S first)) by lia.
    destruct (IH (S first) a1 b1 pr1)
      as (a' & b' & pr' & -> & Ha' & Hb' & Hsum' & Hout').
    exists a', b', pr'. split; [reflexivity|].
    split; [lia|]. split; [lia|]. split; [lia|].
    rewrite Hout', Hout, progress_lines_S, <- app_assoc. reflexivity.
Qed.



(** ** The length of a turn *)

Lemma do_round_inv (p : Player) (game : Game) (w w1 : World) (o : Outcome unit) :
  comes_back (strategy p) ->
  Player_do_round p game w = (o, w1) ->
  (exists e, o = Raise e) \/
  (o = Return tt /\
   len (kept_dice (store w (turn p))) < len (kept_dice (store w1 (turn p))) <= NUM_DICE).
Proof.
  intros Hback. unfold Player_do_round, bind, Turn_roll. rewrite roll_dice_spec.
  unfold invoke. cbn [store rng rolled log].
  match goal with
  | |- context [call (strategy p) ?st ?gv ?t ?d ?g] =>
      pose proof (Hback st gv t d g) as Hcall;
      destruct (call (strategy p) st gv t d g) as [[sel|e|] g']
  end.
  - unfold Turn_keep. cbn [store].
    destruct (fits_dec (store w (turn p)) sel) as [Hf|Hf].
    + rewrite (keep_fits _ _ Hf). unfold set_turn. intros H. inversion H; subst.
      right. split; [reflexivity|]. cbn [store]. rewrite store_insert_eq.
      cbn [kept_dice]. rewrite len_app. unfold fits in Hf. lia.
    + rewrite (keep_unfit _ _ Hf). intros H. inversion H; subst. left. eauto.
  - intros H. inversion H; subst. left. eauto.
  - exfalso. apply Hcall. reflexivity.
Qed.

Lemma finish_turn_budget (n fuel fuel' : nat) (p : Player) (game : Game) (w : World) :
  comes_back (strategy p) ->
  (len (kept_dice (store w (turn p))) <= NUM_DICE ->
   NUM_DICE - len (kept_dice (store w (turn p))) <= Z.of_nat n) ->
  (1 <= n)%nat -> (n <= fuel)%nat -> (n <= fuel')%nat ->
  finish_turn fuel p game w = finish_turn fuel' p game w /\
  fst (finish_turn fuel p game w) <> OutOfFuel.
Proof.
  intros Hback. revert fuel fuel' w.
  induction n as [|n IH]; intros fuel fuel' w Hneed Hn Hfuel Hfuel'; [lia|].
  destruct fuel as [|fuel]; [lia|]. destruct fuel' as [|fuel']; [lia|].
  cbn [finish_turn]. destruct (over (store w (turn p))) eqn:Hov.
  - split; [reflexivity | discriminate].
  - unfold bind. destruct (Player_do_round p game w) as [o w1] eqn:Hround.
    destruct (do_round_inv _ _ _ _ _ Hback Hround) as [[e ->]|[-> Hgrow]].
    + split; [reflexivity | discriminate].
    + unfold over in Hov. apply Z.eqb_neq in Hov.
      destruct n as [|n].
      * assert (Hdone : over (store w1 (turn p)) = true).
        { unfold over. apply Z.eqb_eq.
          pose proof (len_nonneg (kept_dice (store w (turn p)))). lia. }
        rewrite !(finish_turn_over _ _ _ _ Hdone). split; [reflexivity | discriminate].
      * apply IH; lia.
Qed.

Lemma take_turns_budget (fuel fuel' : nat) (game : Game) (ps : list Player) (w : World) :
  Forall (fun p => comes_back (strategy p)) ps ->
  NUM_DICE <= Z.of_nat fuel -> NUM_DICE <= Z.of_nat fuel' ->
  for_each ps (fun player => finish_turn fuel player game) w
  = for_each ps (fun player => finish_turn fuel' player game) w /\
  fst (for_each ps (fun player => finish_turn fuel player game) w) <> OutOfFuel.
Proof.
  intros Hback Hfuel Hfuel'. revert w.
  induction Hback as [|p ps Hp Hps IH]; intros w; cbn [for_each].
  - split; [reflexivity | discriminate].
  - unfold bind.
    assert (Hturn : finish_turn fuel p game w = finish_turn fuel' p game w /\
                    fst (finish_turn fuel p game w) <> OutOfFuel).
    { apply (finish_turn_budget 5); try (unfold NUM_DICE in *; lia); [exact Hp|].
      intros _. pose proof (len_nonneg (kept_dice (store w (turn p)))).
      unfold NUM_DICE. lia. }
    destruct Hturn as [Heq Hne].
    rewrite <- Heq. destruct (finish_turn fuel p game w) as [[[]|e|] w1].
    + apply IH.
    + split; [reflexivity | discriminate].
    + exfalso. apply Hne. reflexivity.
Qed.

(** X11: for strategies that only read the game and the player they are
    handed, as every strategy class of the program does and as [Strategy]
    has them: whatever selections such strategies return and whatever the
    turns hold, a turn takes at most [NUM_DICE] rounds, since every round
    that does not raise adds at least one die and the check in [keep] stops
    a turn from growing beyond [NUM_DICE]. So once the budget of iterations
    reaches [NUM_DICE], [play] always comes to an end (with winners or an
    exception) and its result no longer depends on the budget. *)
Theorem a_turn_takes_at_most_five_rounds (fuel fuel' : nat) (game : Game) (w : World) :
  Forall (fun p => comes_back (strategy p)) (players game) ->
  NUM_DICE <= Z.of_nat fuel ->
  NUM_DICE <= Z.of_nat fuel' ->
  Game_play fuel game w = Game_play fuel' game w /\
  fst (Game_play fuel game w) <> OutOfFuel.
Proof.
  intros Hback Hfuel Hfuel'. unfold Game_play, bind.
  destruct (take_turns_budget fuel fuel' game (players game) w Hback Hfuel Hfuel')
    as [Heq Hne].
  rewrite <- Heq.
  destruct (for_each (players game) _ w) as [[[]|e|] w1].
  - split; [reflexivity | discriminate].
  - split; [reflexivity | discriminate].
  - exfalso. apply Hne. reflexivity.
Qed.

Lemma pure_strategy_comes_back
    (f : Store -> GameView -> loc -> list Dice -> Outcome (list Dice)) (n : string) :
  (forall st game player dice, f st game player dice <> OutOfFuel) ->
  comes_back {| class_name := n; call := pure_strategy f |}.
Proof. intros Hf st game player dice g. apply Hf. Qed.

Lemma or_lowest_comes_back (keep dice : list Dice) : or_lowest keep dice <> OutOfFuel.
Proof.
  unfold or_lowest, or_lowest_of. destruct keep; [|discriminate].
  destruct dice; simpl; discriminate.
Qed.

Lemma keep_twice_comes_back : comes_back keep_twice.
Proof. apply pure_strategy_comes_back. discriminate. Qed.

Lemma SimpleStrategy_comes_back : comes_back SimpleStrategy.
Proof.
  apply pure_strategy_comes_back. intros. unfold SimpleStrategy_call.
  apply or_lowest_comes_back.
Qed.

Lemma a_turn_takes_at_most_five_rounds_witness :
  let game := {| players := [simple_player;
                             {| name := "KeepTwice"; strategy := keep_twice;
                                turn := 1%nat |}] |} in
  Game_play 5 game fresh_world = Game_play 1000 game fresh_world /\
  fst (Game_play 5 game fresh_world) <> OutOfFuel.
Proof.
  intros game. apply a_turn_takes_at_most_five_rounds.
  - constructor; [apply SimpleStrategy_comes_back|].
    constructor; [apply keep_twice_comes_back | constructor].
  - vm_compute. discriminate.
  - vm_compute. discriminate.
Defined.

(** ** New players *)

Lemma make_players_spec (strategies : list Strategy) (pr : Process) :
  map strategy (fst (make_players strategies pr)) = strategies /\
  map name (fst (make_players strategies pr)) = map str strategies /\
  map turn (fst (make_players strategies pr))
  = seq (next_turn pr) (length strategies) /\
  next_turn (snd (make_players strategies pr))
  = (next_turn pr + length strategies)%nat /\
  (forall l, (next_turn pr <= l < next_turn pr + length strategies)%nat ->
             store (world (snd (make_players strategies pr))) l = Turn_init) /\
  (forall l, (l < next_turn pr)%nat ->
             store (world (snd (make_players strategies pr))) l
             = store (world pr) l) /\
  rng (world (snd (make_players strategies pr))) = rng (world pr) /\
  rolled (world (snd (make_players strategies pr))) = rolled (world pr) /\
  log (world (snd (make_players strategies pr))) = log (world pr) /\
  stdout (snd (make_players strategies pr)) = stdout pr.
Proof.
  revert pr. induction strategies as [|s rest IH]; intros pr.
  - cbn [make_players fst snd map length seq]. rewrite Nat.add_0_r.
    repeat split; auto. intros l Hl. lia.
  - cbn [make_players]. unfold Player_init.
    set (pr1 := {| world := _; next_turn := S (next_turn pr); stdout := stdout pr |}).
    specialize (IH pr1).
    destruct (make_players rest pr1) as [ps pr2]. cbn [fst snd] in *.
    destruct IH as (Hs & Hn & Ht & Hnext & Hnew & Hold & Hrng & Hrolled & Hlog & Hout).
    cbn [map strategy name turn length seq]. rewrite Hs, Hn, Ht, Hnext.
    cbn [next_turn world stdout store rng rolled log pr1] in *.
    repeat split; auto; try lia.
    + intros l Hl. destruct (Nat.eq_dec l (next_turn pr)) as [->|Hne].
      * rewrite Hold by lia. apply store_insert_eq.
      * apply Hnew. lia.
    + intros l Hl. rewrite Hold by lia. apply store_insert_ne. lia.
Qed.

(** X12: the players [run] makes for a game each own a new, empty [Turn]
    of their own: the turns are pairwise distinct and none is a turn that
    existed before, whose kept dice stay as they were. The players carry
    the strategies in the order given, under the names of their classes;
    nothing is rolled or printed. *)
Theorem new_players_own_fresh_turns (strategies : list Strategy) (pr : Process) :
  exists ps pr',
    make_players strategies pr = (ps, pr') /\
    map strategy ps = strategies /\
    map name ps = map class_name strategies /\
    List.NoDup (map turn ps) /\
    Forall (fun p => (next_turn pr <= turn p < next_turn pr')%nat /\
                     kept_dice (store (world pr') (turn p)) = []) ps /\
    (forall l, (l < next_turn pr)%nat ->
               store (world pr') l = store (world pr) l) /\
    rolled (world pr') = rolled (world pr) /\
    stdout pr' = stdout pr.
Proof.
  pose proof (make_players_spec strategies pr)
    as (Hs & Hn & Ht & Hnext & Hnew & Hold & _ & Hrolled & _ & Hout).
  destruct (make_players strategies pr) as [ps pr']. cbn [fst snd] in *.
  exists ps, pr'. split; [reflexivity|]. split; [exact Hs|]. split; [exact Hn|].
  split; [rewrite Ht; apply List.seq_NoDup|]. split; [|auto].
  apply Forall_forall. intros p Hp.
  assert (Hin : In (turn p) (seq (next_turn pr) (length strategies)))
    by (rewrite <- Ht; apply in_map, Hp).
  apply in_seq in Hin. split; [lia|]. rewrite Hnew by lia. reflexivity.
Qed.
